(** * Iterator adaptor, fractional-step iterator and generating iterator

    A shallow embedding of [src/util/iterator.hpp] (namespace [top1]):
    the primitive [FloatStepIterImpl], the primitive [GeneratingIterImpl]
    and the operator surface that [iterator_adaptor_impl] builds on top of
    a primitive.

    The source computes with the C++ type [float].  The member functions
    of [FloatStepIterImpl] are written over an interface [FloatArith] of
    the arithmetic they use, and that interface is instantiated with
    IEEE 754 binary32 (round to nearest, ties to even), taken from the
    executable specification [SpecFloat] of the Standard Library.

    Assumptions on the platform: [float] is binary32 and every
    operation on it rounds once, to nearest; [int] has 32 bits and
    [std::ptrdiff_t] 64 bits.  Integers are modelled by [Z], with the
    narrowing to [int] and the conversions between integers and [float]
    written out. *)

From Stdlib Require Import ZArith Lia Bool List.
From Stdlib Require Import Floats.SpecFloat.
From stdpp Require Import base option list.

#[local] Open Scope Z_scope.

(** ** The arithmetic used by the fractional-step primitive *)

Class FloatArith (F : Type) := {
  (** conversion of an integer ([int], [std::ptrdiff_t]) to [float] *)
  of_int : Z -> F;
  fadd : F -> F -> F;
  fsub : F -> F -> F;
  fmul : F -> F -> F;
  fdiv : F -> F -> F;
  (** [std::modf]: the fractional part (returned) and the integral part
      (stored through the pointer), both with the sign of the argument *)
  modf : F -> F * F;
  (** the comparisons [<] and [==] *)
  fltb : F -> F -> bool;
  feqb : F -> F -> bool;
  (** conversion of a [float] to an integer type: truncation toward zero,
      [None] where the conversion is undefined *)
  to_int : F -> option Z
}.

(** *** IEEE 754 binary32 *)

Module Binary32.

Definition prec : Z := 24.
Definition emax : Z := 128.

Definition float32 : Type := spec_float.

(** The value [m * 2^e], rounded to binary32. *)
Definition of_bits (m e : Z) : float32 := binary_normalize prec emax m e false.

Definition of_Z (z : Z) : float32 := of_bits z 0.

Definition add : float32 -> float32 -> float32 := SFadd prec emax.
Definition sub : float32 -> float32 -> float32 := SFsub prec emax.
Definition mul : float32 -> float32 -> float32 := SFmul prec emax.
Definition div : float32 -> float32 -> float32 := SFdiv prec emax.
Definition ltb : float32 -> float32 -> bool := SFltb.
Definition leb : float32 -> float32 -> bool := SFleb.
Definition eqb : float32 -> float32 -> bool := SFeqb.

(** Magnitude of a finite float, truncated toward zero. *)
Definition trunc_magnitude (m : positive) (e : Z) : Z :=
  match e with
  | Zneg p => Z.shiftr (Zpos m) (Zpos p)
  | _ => Z.shiftl (Zpos m) e
  end.

(** [std::modf(x, &ip)] for [float]: [ip] is [x] truncated toward zero,
    the result is [x - ip]; both carry the sign of [x], an infinity has
    fractional part zero. *)
Definition modf32 (x : float32) : float32 * float32 :=
  match x with
  | S754_nan => (S754_nan, S754_nan)
  | S754_infinity s => (S754_zero s, x)
  | S754_zero _ => (x, x)
  | S754_finite s m e =>
      let ip := binary_normalize prec emax
                  (cond_Zopp s (trunc_magnitude m e)) 0 s in
      let fr := match sub x ip with
                | S754_zero _ => S754_zero s
                | r => r
                end in
      (fr, ip)
  end.

(** [std::ptrdiff_t] is taken to be 64 bits wide. *)
Definition PTRDIFF_MIN : Z := - 2 ^ 63.
Definition PTRDIFF_MAX : Z := 2 ^ 63 - 1.

(** Conversion of a [float] to [std::ptrdiff_t]: the fractional part is
    discarded; the behaviour is undefined if the truncated value is not
    representable (and for infinities and NaN). *)
Definition to_ptrdiff (x : float32) : option Z :=
  match x with
  | S754_zero _ => Some 0
  | S754_finite s m e =>
      let z := cond_Zopp s (trunc_magnitude m e) in
      if (PTRDIFF_MIN <=? z) && (z <=? PTRDIFF_MAX) then Some z else None
  | _ => None
  end.

Definition is_nan (x : float32) : bool :=
  match x with S754_nan => true | _ => false end.

Definition is_finite (x : float32) : bool :=
  match x with S754_zero _ | S754_finite _ _ _ => true | _ => false end.

Definition is_zero (x : float32) : bool :=
  match x with S754_zero _ => true | _ => false end.

(** [y] is [-x]; two zeros count as opposite whatever their signs. *)
Definition opposite (x y : float32) : Prop :=
  (is_zero x = true /\ is_zero y = true) \/ y = SFopp x.

(** [0 <= x && x < 1], the range documented for [error()]. *)
Definition in_unit_interval (x : float32) : bool :=
  leb (of_Z 0) x && ltb x (of_Z 1).

#[global] Instance arith : FloatArith float32 := {
  of_int := of_Z;
  fadd := add;
  fsub := sub;
  fmul := mul;
  fdiv := div;
  modf := modf32;
  fltb := ltb;
  feqb := eqb;
  to_int := to_ptrdiff
}.

End Binary32.

(** ** The fractional-step primitive, [FloatStepIterImpl<I, V>]

    The wrapped random-access iterator [I] is modelled by its position,
    an integer index into the underlying sequence: [iter - o.iter] is
    subtraction of positions and [std::advance(iter, k)] adds [k]. *)

Module FloatStep.

Section FloatStep.

Context {F : Type} {arith : FloatArith F}.

Record FloatStepIterImpl : Type := mkFloatStep {
  step : F;       (* float step = 1.f  *)
  _error : F;     (* float _error = 0.f *)
  iter : Z        (* wrapped_type iter *)
}.

(** [FloatStepIterImpl(const wrapped_type& iter, float step = 1.f)]:
    [_error] keeps its default member initialiser. *)
Definition FloatStepIterImpl_new (it : Z) (st : F) : FloatStepIterImpl :=
  {| step := st; _error := of_int 0; iter := it |}.

Definition FloatStepIterImpl_default (it : Z) : FloatStepIterImpl :=
  FloatStepIterImpl_new it (of_int 1).

(** [FloatStepIterImpl(const FloatStepIterImpl& r)] *)
Definition FloatStepIterImpl_copy (r : FloatStepIterImpl) : FloatStepIterImpl :=
  {| step := step r; _error := _error r; iter := iter r |}.

(** [bool equal(const FloatStepIterImpl& r) const] *)
Definition equal (a r : FloatStepIterImpl) : bool :=
  (iter a =? iter r) && feqb (_error a) (_error r).

(** The quotient computed by [difference], before its conversion to
    the return type. *)
Definition difference_quotient (a o : FloatStepIterImpl) : F :=
  fdiv (fadd (of_int (iter a - iter o)) (fsub (_error a) (_error o)))
       (step a).

(** [std::ptrdiff_t difference(const FloatStepIterImpl& o) const] *)
Definition difference (a o : FloatStepIterImpl) : option Z :=
  to_int (difference_quotient a o).

(** The argument of [std::modf] in [advance], [_error + step * n]. *)
Definition raw_sum (a : FloatStepIterImpl) (n : Z) : F :=
  fadd (_error a) (fmul (step a) (of_int n)).

(** The values of [_error] and [intPart] when [advance] reaches its
    call of [std::advance]. *)
Definition advance_split (a : FloatStepIterImpl) (n : Z) : F * F :=
  let '(err, intPart) := modf (raw_sum a n) in
  if fltb err (of_int 0)
  then (fadd err (of_int 1), fsub intPart (of_int 1))
  else (err, intPart).

(** [void advance(int n)]; [None] when the conversion of [intPart] to
    the distance type of [std::advance] is undefined. *)
Definition advance (n : Z) (a : FloatStepIterImpl) : option FloatStepIterImpl :=
  let '(err, intPart) := advance_split a n in
  k ← to_int intPart;
  Some {| step := step a; _error := err; iter := iter a + k |}.

(** [step] is a public data member: the assignment [it.step = s]. *)
Definition set_step (s : F) (a : FloatStepIterImpl) : FloatStepIterImpl :=
  {| step := s; _error := _error a; iter := iter a |}.

(** [wrapped_type data() const] and [float error() const] *)
Definition data (a : FloatStepIterImpl) : Z := iter a.
Definition error (a : FloatStepIterImpl) : F := _error a.

(** The states a program can bring a primitive into: construction,
    copies, [advance] where it is defined, assignments to [step]. *)
Inductive reachable : FloatStepIterImpl -> Prop :=
  | reachable_new (p : Z) (s : F) : reachable (FloatStepIterImpl_new p s)
  | reachable_copy (a : FloatStepIterImpl) :
      reachable a -> reachable (FloatStepIterImpl_copy a)
  | reachable_set_step (s : F) (a : FloatStepIterImpl) :
      reachable a -> reachable (set_step s a)
  | reachable_advance (n : Z) (a a' : FloatStepIterImpl) :
      reachable a -> advance n a = Some a' -> reachable a'.

(** [n] calls of [advance(1)], one after the other. *)
Fixpoint advance_times (n : nat) (a : FloatStepIterImpl) : option FloatStepIterImpl :=
  match n with
  | O => Some a
  | S n' => a' ← advance 1 a; advance_times n' a'
  end.

End FloatStep.

Arguments FloatStepIterImpl F : clear implicits.

End FloatStep.

(** ** The generating primitive, [GeneratingIterImpl<Generator>]

    The callable [generator] is an object with a state of its own: a call
    [std::invoke(generator)] returns a value and leaves the callable in
    its next state. *)

Module Generating.

Section Generating.

Context {G V : Type}.

(** One call of the producer. *)
Variable invoke : G -> V * G.

Record GeneratingIterImpl : Type := mkGenerating {
  val : V;         (* value_type val *)
  generator : G    (* Generator generator *)
}.

(** [GeneratingIterImpl(Generator generator)]: [val] is not initialised
    by the constructor, [v0] stands for its content. *)
Definition GeneratingIterImpl_new (v0 : V) (g : G) : GeneratingIterImpl :=
  {| val := v0; generator := g |}.

(** The loop body, [val = std::invoke(generator)]. *)
Definition generate (a : GeneratingIterImpl) : GeneratingIterImpl :=
  let '(v, g) := invoke (generator a) in {| val := v; generator := g |}.

(** [for (int i = 0; i < n; i++) { val = std::invoke(generator); }]
    from the current value of [i]; [None] when the fuel is used up
    before the loop condition fails. *)
Fixpoint advance_loop (fuel : nat) (i n : Z) (a : GeneratingIterImpl)
  : option GeneratingIterImpl :=
  match fuel with
  | O => None
  | S fuel' =>
      if i <? n then advance_loop fuel' (i + 1) n (generate a) else Some a
  end.

(** [void advance(int n)] *)
Definition advance (n : Z) (a : GeneratingIterImpl) : option GeneratingIterImpl :=
  advance_loop (S (Z.to_nat n)) 0 n a.

(** [value_type& dereference()]: the value read through the returned
    reference, and the object after the call. *)
Definition dereference (a : GeneratingIterImpl) : V * GeneratingIterImpl :=
  (val a, a).

(** The values returned by [k] successive calls of the producer, first
    call first, and the state in which they leave it. *)
Fixpoint produce (k : nat) (g : G) : list V * G :=
  match k with
  | O => ([], g)
  | S k' =>
      let '(v, g1) := invoke g in
      let '(vs, g2) := produce k' g1 in
      (v :: vs, g2)
  end.

End Generating.

Arguments GeneratingIterImpl G V : clear implicits.

End Generating.

(** A producer that counts how often it is called: it wraps the producer
    [invoke] and adds one to its counter on every call. *)
Definition counting {G V : Type} (invoke : G -> V * G) : G * nat -> V * (G * nat) :=
  fun '(g, c) => let '(v, g') := invoke g in (v, (g', S c)).

(** The producer of the scenario of an incrementing counter: each call
    returns the counter and adds one to it. *)
Definition counter_producer : Z -> Z * Z := fun c => (c, c + 1).

(** ** The primitive contract

    What [iterator_adaptor_impl] requires of [Impl]: a copy constructor,
    [advance], [dereference], and for the operators that use them [equal]
    and [difference].  [difference_type] is modelled by [Z]. *)

Inductive iterator_category : Type :=
  | input_iterator_tag
  | forward_iterator_tag
  | bidirectional_iterator_tag
  | random_access_iterator_tag.

Class Primitive (Impl V : Type) := {
  prim_category : iterator_category;
  prim_copy : Impl -> Impl;
  prim_advance : Z -> Impl -> option Impl;
  prim_dereference : Impl -> V
}.

Class EqualPrimitive (Impl : Type) := {
  prim_equal : Impl -> Impl -> bool
}.

Class DifferencePrimitive (Impl : Type) := {
  prim_difference : Impl -> Impl -> option Z
}.

(** Conversion of a [difference_type] argument to the parameter type
    [int] of the two [advance] member functions: reduction modulo 2^32
    into the range of [int]. *)
Definition to_int32 (d : Z) : Z := (d + 2 ^ 31) mod 2 ^ 32 - 2 ^ 31.

(** [FloatStepIterImpl] as a primitive; [underlying] is the sequence the
    wrapped iterator ranges over, [*iter] reads it at the position. *)
#[export] Instance float_step_primitive {F V : Type} {arith : FloatArith F}
  (underlying : Z -> V) : Primitive (FloatStep.FloatStepIterImpl F) V := {
  prim_category := random_access_iterator_tag;
  prim_copy := FloatStep.FloatStepIterImpl_copy;
  prim_advance := fun d a => FloatStep.advance (to_int32 d) a;
  prim_dereference := fun a => underlying (FloatStep.iter a)
}.

#[export] Instance float_step_equal {F : Type} {arith : FloatArith F}
  : EqualPrimitive (FloatStep.FloatStepIterImpl F) := {
  prim_equal := FloatStep.equal
}.

#[export] Instance float_step_difference {F : Type} {arith : FloatArith F}
  : DifferencePrimitive (FloatStep.FloatStepIterImpl F) := {
  prim_difference := FloatStep.difference
}.

(** [GeneratingIterImpl<Generator>] as a primitive, for a [Generator]
    that is an object type: this is what [generator(gen)] builds from an
    rvalue [gen], and the member [generator] then holds the producer by
    value.  (For an lvalue [gen] the parameter [Generator&&] deduces a
    reference type; that instance is [SharedGenerating] below.)  The
    copy constructor is the implicit one; [equal] does not compile when
    instantiated, so there is no [EqualPrimitive]. *)
#[export] Instance generating_primitive {G V : Type} (invoke : G -> V * G)
  : Primitive (Generating.GeneratingIterImpl G V) V := {
  prim_category := input_iterator_tag;
  prim_copy := fun a =>
    {| Generating.val := Generating.val a;
       Generating.generator := Generating.generator a |};
  prim_advance := fun d a => Generating.advance invoke (to_int32 d) a;
  prim_dereference := fun a => fst (Generating.dereference a)
}.

(** ** The iterator adaptor, [iterator_adaptor_impl<Impl, Category>]

    Iterators are objects: an operator works on [*this], may build a
    further object (a copy) and may hand back either a new object or a
    reference to [*this].  Objects live in a store addressed by
    locations; next to the store a log records, in order, every call the
    adaptor makes to a member function of the primitive. *)

Module Adaptor.

Definition loc := nat.

Inductive call : Type :=
  | CallAdvance (this : loc) (n : Z)
  | CallDereference (this : loc)
  | CallEqual (this r : loc)
  | CallDifference (this r : loc).

Record heap (Impl : Type) : Type := Heap {
  objs : list Impl;
  calls : list call
}.

Arguments Heap {Impl} _ _.
Arguments objs {Impl} _.
Arguments calls {Impl} _.

(** Computations on the store; [None] is undefined behaviour. *)
Definition M (Impl A : Type) : Type := heap Impl -> option (A * heap Impl).

Definition ret {Impl A : Type} (x : A) : M Impl A := fun h => Some (x, h).

Definition bind {Impl A B : Type} (m : M Impl A) (k : A -> M Impl B) : M Impl B :=
  fun h =>
    match m h with
    | Some (x, h') => k x h'
    | None => None
    end.

Declare Scope adaptor_scope.
Delimit Scope adaptor_scope with adaptor.
Notation "'let*' x ':=' m 'in' k" := (bind m (fun x => k))
  (at level 10, x name, m at level 100, k at level 200) : adaptor_scope.
Notation "m ';;;' k" := (bind m (fun _ => k))
  (at level 100, k at level 200, right associativity) : adaptor_scope.

Section Adaptor.

Context {Impl V : Type} {P : Primitive Impl V}.

#[local] Open Scope adaptor_scope.

(** The object at a location. *)
Definition load (l : loc) : M Impl Impl :=
  fun h =>
    match objs h !! l with
    | Some x => Some (x, h)
    | None => None
    end.

(** Overwrite the object at a location. *)
Definition store (l : loc) (x : Impl) : M Impl unit :=
  fun h => Some (tt, Heap (<[l := x]> (objs h)) (calls h)).

(** A new object, at the first unused location. *)
Definition alloc (x : Impl) : M Impl loc :=
  fun h => Some (length (objs h), Heap (objs h ++ [x]) (calls h)).

Definition record (c : call) : M Impl unit :=
  fun h => Some (tt, Heap (objs h) (calls h ++ [c])).

Definition lift {A : Type} (o : option A) : M Impl A :=
  fun h =>
    match o with
    | Some x => Some (x, h)
    | None => None
    end.

(** [iterator_adaptor_impl(const iterator_adaptor_impl& r)
    : Impl {static_cast<Impl>(r)}] *)
Definition copy_construct (r : loc) : M Impl loc :=
  let* x := load r in alloc (prim_copy x).

(** [Impl::advance(n)] on the object at [this] *)
Definition call_advance (this : loc) (n : Z) : M Impl unit :=
  let* x := load this in
  record (CallAdvance this n);;;
  let* x' := lift (prim_advance n x) in
  store this x'.

(** [Impl::dereference()] *)
Definition call_dereference (this : loc) : M Impl V :=
  let* x := load this in
  record (CallDereference this);;;
  ret (prim_dereference x).

(** [iterator_adaptor_impl operator++()], the form that [++it]
    selects. *)
Definition op_preinc (this : loc) : M Impl loc :=
  let* old := copy_construct this in
  call_advance this 1;;;
  ret old.

(** [iterator_adaptor_impl& operator++(int)], the form that [it++]
    selects. *)
Definition op_postinc (this : loc) : M Impl loc :=
  call_advance this 1;;;
  ret this.

(** [operator*] and [operator->] *)
Definition op_deref (this : loc) : M Impl V := call_dereference this.
Definition op_arrow (this : loc) : M Impl V := call_dereference this.

(** [iterator_adaptor_impl operator--()], the form that [--it]
    selects. *)
Definition op_predec (this : loc) : M Impl loc :=
  let* old := copy_construct this in
  call_advance this (-1);;;
  ret old.

(** [iterator_adaptor_impl& operator--(int)], the form that [it--]
    selects. *)
Definition op_postdec (this : loc) : M Impl loc :=
  call_advance this (-1);;;
  ret this.

(** [iterator_adaptor_impl operator+(difference_type d) const] *)
Definition op_plus (this : loc) (d : Z) : M Impl loc :=
  let* res := copy_construct this in
  call_advance res d;;;
  ret res.

(** [iterator_adaptor_impl operator-(difference_type d) const] *)
Definition op_minus (this : loc) (d : Z) : M Impl loc :=
  let* res := copy_construct this in
  call_advance res (- d);;;
  ret res.

(** [iterator_adaptor_impl& operator+=(difference_type d)] *)
Definition op_plus_assign (this : loc) (d : Z) : M Impl loc :=
  call_advance this d;;;
  ret this.

(** [iterator_adaptor_impl& operator-=(difference_type d)] *)
Definition op_minus_assign (this : loc) (d : Z) : M Impl loc :=
  call_advance this (- d);;;
  ret this.

(** [reference operator[](difference_type d)] *)
Definition op_index (this : loc) (d : Z) : M Impl V :=
  let* tmp := op_plus this d in
  op_deref tmp.

Section Equality.

Context {E : EqualPrimitive Impl}.

(** [Impl::equal(r)] *)
Definition call_equal (this r : loc) : M Impl bool :=
  let* x := load this in
  let* y := load r in
  record (CallEqual this r);;;
  ret (prim_equal x y).

Definition op_eq (this r : loc) : M Impl bool := call_equal this r.

Definition op_ne (this r : loc) : M Impl bool :=
  let* b := call_equal this r in ret (negb b).

End Equality.

Section Distance.

Context {D : DifferencePrimitive Impl}.

(** [Impl::difference(d)] *)
Definition call_difference (this d : loc) : M Impl Z :=
  let* x := load this in
  let* y := load d in
  record (CallDifference this d);;;
  lift (prim_difference x y).

(** [difference_type operator-(const iterator_adaptor_impl& d) const] *)
Definition op_distance (this d : loc) : M Impl Z := call_difference this d.

Definition op_lt (this d : loc) : M Impl bool :=
  let* k := call_difference this d in ret (k <? 0).

Definition op_gt (this d : loc) : M Impl bool :=
  let* k := call_difference this d in ret (k >? 0).

Definition op_le (this d : loc) : M Impl bool :=
  let* k := call_difference this d in ret (k <=? 0).

Definition op_ge (this d : loc) : M Impl bool :=
  let* k := call_difference this d in ret (k >=? 0).

End Distance.

End Adaptor.

End Adaptor.


(** ** The generating iterator over a producer passed as an lvalue

    [generator(Generator&& gen)] returns [generating_iterator<Generator>]
    with [Generator] as deduced; unlike [float_step] it does not strip
    the reference.  For an lvalue [gen] of type [T], [Generator] is
    [T&]: the member [Generator generator] of [GeneratingIterImpl<T&>]
    is a reference bound to [gen], and the implicit copy constructor
    binds the copy's member to the same object.  The producers live in a
    store of their own, next to the iterators; an iterator holds the
    location of the producer its reference is bound to. *)

Module SharedGenerating.

Section SharedGenerating.

Context {G V : Type}.

(** One call of the producer. *)
Variable invoke : G -> V * G.

Record GeneratingIterImpl : Type := mkShared {
  val : V;                  (* value_type val *)
  generator : Adaptor.loc   (* Generator generator, with Generator = T& *)
}.

Record world : Type := World {
  producers : list G;
  iterators : list GeneratingIterImpl
}.

(** [generator(gen)] for the lvalue [gen] at [cell]: a new iterator
    whose reference is bound to [gen]; [val] is not initialised, [v0]
    stands for its content. *)
Definition generator_of_lvalue (v0 : V) (cell : Adaptor.loc) (w : world)
  : Adaptor.loc * world :=
  (length (iterators w),
   World (producers w) (iterators w ++ [{| val := v0; generator := cell |}])).

(** Copy construction of the adaptor: the implicit copy constructor of
    the primitive copies [val] and binds [generator] to the object the
    original's member is bound to. *)
Definition copy_construct (r : Adaptor.loc) (w : world)
  : option (Adaptor.loc * world) :=
  a ← iterators w !! r;
  Some (length (iterators w),
        World (producers w)
              (iterators w ++ [{| val := val a; generator := generator a |}])).

(** The loop body of [advance], [val = std::invoke(generator)], on the
    iterator at [this]: the call goes through the reference and changes
    the producer it is bound to. *)
Definition generate (this : Adaptor.loc) (w : world) : option world :=
  a ← iterators w !! this;
  g ← producers w !! generator a;
  let '(v, g') := invoke g in
  Some (World (<[generator a := g']> (producers w))
              (<[this := {| val := v; generator := generator a |}]> (iterators w))).

(** [for (int i = 0; i < n; i++) { val = std::invoke(generator); }] *)
Fixpoint advance_loop (fuel : nat) (i n : Z) (this : Adaptor.loc) (w : world)
  : option world :=
  match fuel with
  | O => None
  | S fuel' =>
      if i <? n
      then w' ← generate this w; advance_loop fuel' (i + 1) n this w'
      else Some w
  end.

(** [void advance(int n)] *)
Definition advance (n : Z) (this : Adaptor.loc) (w : world) : option world :=
  advance_loop (S (Z.to_nat n)) 0 n this w.

(** [iterator_adaptor_impl& operator++(int)] *)
Definition op_postinc (this : Adaptor.loc) (w : world)
  : option (Adaptor.loc * world) :=
  w' ← advance 1 this w; Some (this, w').

(** [operator*]: [dereference()] returns [val]. *)
Definition op_deref (this : Adaptor.loc) (w : world) : option V :=
  a ← iterators w !! this; Some (val a).

End SharedGenerating.

Arguments GeneratingIterImpl V : clear implicits.
Arguments world G V : clear implicits.

End SharedGenerating.


(** ** Concrete iterators *)

Module Scenario.

Import Binary32 FloatStep.

(** The sequence 0, 1, 2, ...: the element at a position is the
    position itself. *)
Definition ints : Z -> Z := fun z => z.

(** The binary32 iterator at position [p] with the given step and
    error. *)
Definition at_position (p : Z) (st err : float32) : FloatStepIterImpl float32 :=
  {| step := st; _error := err; iter := p |}.

Definition f32_0 : float32 := of_Z 0.
Definition f32_neg_0 : float32 := S754_zero true.
Definition f32_1 : float32 := of_Z 1.
Definition f32_half : float32 := of_bits 1 (-1).
Definition f32_2_5 : float32 := of_bits 5 (-1).
(** -2^-30 *)
Definition f32_neg_tiny : float32 := of_bits (-1) (-30).
(** The literals [0.7f], [0.3f] and [0.01f]: the floats nearest to
    7/10, 3/10 and 1/100. *)
Definition f32_0_7 : float32 := div (of_Z 7) (of_Z 10).
Definition f32_0_3 : float32 := div (of_Z 3) (of_Z 10).
Definition f32_0_01 : float32 := div (of_Z 1) (of_Z 100).

(** [float_step(0)], with the default step [1.f]. *)
Definition unit_iter : FloatStepIterImpl float32 := FloatStepIterImpl_default 0.

(** [float_step(0, 2.5f)] *)
Definition resampling_iter : FloatStepIterImpl float32 :=
  FloatStepIterImpl_new 0 f32_2_5.

(** [float_step_iterator] over the integers, in binary32. *)
Definition float_step_ints : Primitive (FloatStepIterImpl float32) Z :=
  float_step_primitive (arith := Binary32.arith) ints.

(** A store holding one iterator and an empty log. *)
Definition single (a : FloatStepIterImpl float32)
  : Adaptor.heap (FloatStepIterImpl float32) :=
  Adaptor.Heap [a] [].

End Scenario.

(** * Properties *)

(** ** The generating primitive *)

Section GeneratingFacts.

Context {G V : Type} (invoke : G -> V * G).

Import Generating.

(** [produce] makes one call per unit of its count. *)
Lemma produce_length (k : nat) (g : G) :
  length (fst (produce invoke k g)) = k.
Proof.
  revert g; induction k as [|k IH]; intros g; simpl; [reflexivity|].
  destruct (invoke g) as [v g1]. specialize (IH g1).
  destruct (produce invoke k g1) as [vs g2]. simpl in *. now rewrite IH.
Qed.

(** Splitting off the last of [k + 1] calls. *)
Lemma produce_snoc (k : nat) (g : G) :
  produce invoke (S k) g =
    (fst (produce invoke k g) ++ [fst (invoke (snd (produce invoke k g)))],
     snd (invoke (snd (produce invoke k g)))).
Proof.
  revert g; induction k as [|k IH]; intros g.
  - simpl. destruct (invoke g); reflexivity.
  - change (produce invoke (S (S k)) g)
      with (let '(v, g1) := invoke g in
            let '(vs, g2) := produce invoke (S k) g1 in (v :: vs, g2)).
    change (produce invoke (S k) g)
      with (let '(v, g1) := invoke g in
            let '(vs, g2) := produce invoke k g1 in (v :: vs, g2)).
    destruct (invoke g) as [v g1]. rewrite (IH g1).
    destruct (produce invoke k g1) as [vs g2]. reflexivity.
Qed.

(** The loop, entered with [k] iterations left, runs its body [k]
    times and stops; the fuel [k + 1] suffices. *)
Lemma advance_loop_iter (k : nat) (i n : Z) (a : GeneratingIterImpl G V) :
  i + Z.of_nat k = n ->
  advance_loop invoke (S k) i n a = Some (Nat.iter k (generate invoke) a).
Proof.
  revert i a; induction k as [|k IH]; intros i a Hk.
  - simpl. replace (i <? n) with false by (symmetry; apply Z.ltb_ge; lia).
    reflexivity.
  - change (advance_loop invoke (S (S k)) i n a)
      with (if i <? n
            then advance_loop invoke (S k) (i + 1) n (generate invoke a)
            else Some a).
    replace (i <? n) with true by (symmetry; apply Z.ltb_lt; lia).
    rewrite IH by lia. f_equal. symmetry. apply Nat.iter_succ_r.
Qed.

(** The loop does not run when its condition fails at entry. *)
Lemma advance_loop_skip (fuel : nat) (i n : Z) (a : GeneratingIterImpl G V) :
  n <= i -> advance_loop invoke (S fuel) i n a = Some a.
Proof.
  intros Hn. simpl.
  replace (i <? n) with false by (symmetry; apply Z.ltb_ge; lia).
  reflexivity.
Qed.

(** [k] runs of the loop body are [k] calls of the producer, of which
    the last result is kept. *)
Lemma iter_generate (k : nat) (a : GeneratingIterImpl G V) :
  Nat.iter (S k) (generate invoke) a =
    {| val := fst (invoke (snd (produce invoke k (generator a))));
       generator := snd (produce invoke (S k) (generator a)) |}.
Proof.
  induction k as [|k IH].
  - simpl. unfold generate. destruct (invoke (generator a)); reflexivity.
  - change (Nat.iter (S (S k)) (generate invoke) a)
      with (generate invoke (Nat.iter (S k) (generate invoke) a)).
    rewrite IH. rewrite (produce_snoc (S k)).
    unfold generate. cbn [generator val snd fst].
    destruct (invoke (snd (produce invoke (S k) (generator a)))); reflexivity.
Qed.

(** [advance] returns for every [n], and runs the loop body
    [Z.to_nat n] times. *)
Lemma advance_iter (n : Z) (a : GeneratingIterImpl G V) :
  advance invoke n a = Some (Nat.iter (Z.to_nat n) (generate invoke) a).
Proof.
  unfold advance. destruct (Z.le_gt_cases n 0) as [Hn|Hn].
  - rewrite advance_loop_skip by lia.
    replace (Z.to_nat n) with O by lia. reflexivity.
  - apply advance_loop_iter. lia.
Qed.

End GeneratingFacts.

Section GeneratingClaims.

Context {G V : Type} (invoke : G -> V * G).

Import Generating.

(** The counting producer makes the same calls as the producer it
    wraps and counts each of them. *)
Lemma produce_counting (k : nat) (g : G) (c : nat) :
  produce (counting invoke) k (g, c) =
    (fst (produce invoke k g), (snd (produce invoke k g), (c + k)%nat)).
Proof.
  revert g c; induction k as [|k IH]; intros g c.
  - simpl. now rewrite Nat.add_0_r.
  - simpl. destruct (invoke g) as [v g1]. rewrite IH.
    destruct (produce invoke k g1) as [vs g2]. simpl.
    now rewrite Nat.add_succ_r.
Qed.

(** C7.  For every [n >= 1], [advance(n)] on the generating primitive
    returns, having called the producer [n] times in sequence: the
    producer is left in the state after [n] calls, the producer that
    counts its calls has counted [n] more, and [val] is the result of
    the last of these calls.  [dereference()] then returns that value,
    and leaves the whole primitive, producer included, as it was, so a
    second [dereference()] returns the same value and calls nothing. *)
Theorem generating_advance_calls_producer_n_times
  (n : Z) (a : GeneratingIterImpl G V) (c : nat) :
  1 <= n ->
  exists a' : GeneratingIterImpl G V,
    advance invoke n a = Some a' /\
    length (fst (produce invoke (Z.to_nat n) (generator a))) = Z.to_nat n /\
    last (fst (produce invoke (Z.to_nat n) (generator a))) = Some (val a') /\
    generator a' = snd (produce invoke (Z.to_nat n) (generator a)) /\
    advance (counting invoke) n
      {| val := val a; generator := (generator a, c) |} =
      Some {| val := val a';
              generator := (generator a', (c + Z.to_nat n)%nat) |} /\
    dereference a' = (val a', a') /\
    dereference (snd (dereference a')) = (val a', a').
Proof.
  intros Hn.
  destruct (Z.to_nat n) as [|k] eqn:Hk; [lia|].
  exists (Nat.iter (S k) (generate invoke) a).
  rewrite (advance_iter invoke), Hk. split; [reflexivity|].
  split; [apply produce_length|].
  rewrite (iter_generate invoke k a). cbn [val generator].
  split.
  { rewrite produce_snoc. cbn [fst]. apply last_snoc. }
  split; [reflexivity|].
  split; [|split; reflexivity].
  rewrite (advance_iter (counting invoke)), Hk, (iter_generate (counting invoke) k).
  cbn [val generator]. rewrite !produce_counting. cbn [fst snd].
  unfold counting at 1.
  destruct (invoke (snd (produce invoke k (generator a)))) as [v g'] eqn:Hv.
  cbn [fst]. reflexivity.
Qed.

(** C10.  For every [n <= 0], [advance(n)] on the generating primitive
    returns without calling the producer: [val] and the producer are
    unchanged, and the producer that counts its calls has counted
    none. *)
Theorem generating_advance_nonpositive_noop
  (n : Z) (a : GeneratingIterImpl G V) (c : nat) :
  n <= 0 ->
  advance invoke n a = Some a /\
  fst (produce invoke (Z.to_nat n) (generator a)) = [] /\
  advance (counting invoke) n
    {| val := val a; generator := (generator a, c) |} =
    Some {| val := val a; generator := (generator a, c) |}.
Proof.
  intros Hn. unfold advance.
  rewrite !advance_loop_skip by lia.
  replace (Z.to_nat n) with O by lia.
  destruct a; repeat split; reflexivity.
Qed.

End GeneratingClaims.

Lemma generating_advance_calls_producer_n_times_witness :
  1 <= 3 /\
  exists a' : Generating.GeneratingIterImpl Z Z,
    Generating.advance counter_producer 3 (Generating.GeneratingIterImpl_new 7 0)
      = Some a' /\
    Generating.val a' = 2 /\ Generating.generator a' = 3.
Proof.
  split; [lia|].
  destruct (generating_advance_calls_producer_n_times counter_producer 3
              (Generating.GeneratingIterImpl_new 7 0) O ltac:(lia))
    as (a' & Hadv & _ & Hlast & Hgen & _).
  exists a'. split; [exact Hadv|].
  split; [|exact Hgen].
  vm_compute in Hlast. injection Hlast as Hv. symmetry. exact Hv.
Defined.

Lemma generating_advance_nonpositive_noop_witness :
  -2 <= 0 /\
  Generating.advance counter_producer (-2) (Generating.GeneratingIterImpl_new 7 0)
    = Some (Generating.GeneratingIterImpl_new 7 0).
Proof.
  split; [lia|].
  apply (generating_advance_nonpositive_noop counter_producer (-2)
           (Generating.GeneratingIterImpl_new 7 0) O).
  lia.
Defined.

(** ** The adaptor *)

Section AdaptorFacts.

Import Adaptor.

Context {Impl V : Type} {P : Primitive Impl V}.

(** Copy construction builds one new object, after all the others, and
    calls no member function of the primitive. *)
Lemma copy_construct_run (h : heap Impl) (r : loc) (x : Impl) :
  objs h !! r = Some x ->
  copy_construct r h =
    Some (length (objs h), Heap (objs h ++ [prim_copy x]) (calls h)).
Proof.
  intros Hr. unfold copy_construct, bind, load, alloc. now rewrite Hr.
Qed.

(** [Impl::advance(n)] is one call, and it rewrites the object it is
    called on. *)
Lemma call_advance_run (h : heap Impl) (this : loc) (n : Z) (x x' : Impl) :
  objs h !! this = Some x ->
  prim_advance n x = Some x' ->
  call_advance this n h =
    Some (tt, Heap (<[this := x']> (objs h)) (calls h ++ [CallAdvance this n])).
Proof.
  intros Hl Ha. unfold call_advance, bind, load, record, lift, store.
  cbn [objs calls]. now rewrite Hl, Ha.
Qed.

(** Whatever [Impl::advance] does, it touches no other object. *)
Lemma call_advance_frame (h h' : heap Impl) (this : loc) (n : Z) (u : unit) :
  call_advance this n h = Some (u, h') ->
  length (objs h') = length (objs h) /\
  forall l : loc, l <> this -> objs h' !! l = objs h !! l.
Proof.
  unfold call_advance, bind, load, record, lift, store. cbn [objs calls].
  destruct (objs h !! this) as [x|]; [|discriminate].
  destruct (prim_advance n x) as [x'|]; [|discriminate].
  intros [= _ <-]. cbn [objs]. split.
  - apply length_insert.
  - intros l Hl. now apply list_lookup_insert_ne.
Qed.

(** A location in use is not the next free one. *)
Lemma lookup_Some_fresh (h : heap Impl) (l : loc) (x : Impl) :
  objs h !! l = Some x -> l <> length (objs h).
Proof. intros Hl%lookup_lt_Some. lia. Qed.

(** [operator++()] copies, then advances [*this] once, and returns the
    copy. *)
Lemma op_preinc_run (h : heap Impl) (this : loc) (x x' : Impl) :
  objs h !! this = Some x ->
  prim_advance 1 x = Some x' ->
  op_preinc this h =
    Some (length (objs h),
          Heap (<[this := x']> (objs h ++ [prim_copy x]))
               (calls h ++ [CallAdvance this 1])).
Proof.
  intros Hl Ha. unfold op_preinc, bind at 1.
  rewrite (copy_construct_run h this x Hl). unfold bind.
  erewrite call_advance_run; [reflexivity| |exact Ha].
  cbn [objs]. rewrite lookup_app_l; [exact Hl|].
  now apply lookup_lt_Some in Hl.
Qed.

(** [operator++(int)] advances [*this] once and returns a reference to
    it. *)
Lemma op_postinc_run (h : heap Impl) (this : loc) (x x' : Impl) :
  objs h !! this = Some x ->
  prim_advance 1 x = Some x' ->
  op_postinc this h =
    Some (this, Heap (<[this := x']> (objs h)) (calls h ++ [CallAdvance this 1])).
Proof.
  intros Hl Ha. unfold op_postinc, bind.
  now rewrite (call_advance_run h this 1 x x' Hl Ha).
Qed.

(** [operator+] and [operator-] on a copy. *)
Lemma op_plus_run (h : heap Impl) (this : loc) (d : Z) (x y : Impl) :
  objs h !! this = Some x ->
  prim_advance d (prim_copy x) = Some y ->
  op_plus this d h =
    Some (length (objs h),
          Heap (objs h ++ [y]) (calls h ++ [CallAdvance (length (objs h)) d])).
Proof.
  intros Hl Ha. unfold op_plus, bind at 1.
  rewrite (copy_construct_run h this x Hl). unfold bind.
  erewrite call_advance_run; [| |exact Ha].
  - cbn [objs calls]. do 3 f_equal.
    rewrite insert_app_r_alt by lia. now rewrite Nat.sub_diag.
  - cbn [objs]. rewrite lookup_app_r by lia. now rewrite Nat.sub_diag.
Qed.

Lemma op_minus_run (h : heap Impl) (this : loc) (d : Z) (x y : Impl) :
  objs h !! this = Some x ->
  prim_advance (- d) (prim_copy x) = Some y ->
  op_minus this d h =
    Some (length (objs h),
          Heap (objs h ++ [y])
               (calls h ++ [CallAdvance (length (objs h)) (- d)])).
Proof. apply op_plus_run. Qed.

End AdaptorFacts.

(** For a primitive that holds all its state by value, as
    [FloatStepIterImpl] does: [a + n] and [a - n] build one new adaptor,
    whose primitive is the copy of [a]'s primitive advanced by [n] and
    by [-n]; the call of [advance] is made on the new object, and [a]
    and every other object that existed keep their state.  After copy
    construction, advancing the copy in place leaves the original as it
    was.  The copy constructor of [FloatStepIterImpl] copies the three
    fields. *)
Lemma adaptor_copies_are_independent
  {Impl V : Type} {P : Primitive Impl V}
  (h : Adaptor.heap Impl) (a : Adaptor.loc) (x : Impl) (n : Z) :
  Adaptor.objs h !! a = Some x ->
  let b := length (Adaptor.objs h) in
  (forall y : Impl, prim_advance n (prim_copy x) = Some y ->
     exists h' : Adaptor.heap Impl,
       Adaptor.op_plus a n h = Some (b, h') /\ b <> a /\
       Adaptor.objs h' !! b = Some y /\
       Adaptor.objs h' !! a = Some x /\
       (forall l : Adaptor.loc, (l < b)%nat ->
          Adaptor.objs h' !! l = Adaptor.objs h !! l) /\
       Adaptor.calls h' = Adaptor.calls h ++ [Adaptor.CallAdvance b n]) /\
  (forall y : Impl, prim_advance (- n) (prim_copy x) = Some y ->
     exists h' : Adaptor.heap Impl,
       Adaptor.op_minus a n h = Some (b, h') /\ b <> a /\
       Adaptor.objs h' !! b = Some y /\
       Adaptor.objs h' !! a = Some x /\
       (forall l : Adaptor.loc, (l < b)%nat ->
          Adaptor.objs h' !! l = Adaptor.objs h !! l) /\
       Adaptor.calls h' = Adaptor.calls h ++ [Adaptor.CallAdvance b (- n)]) /\
  (exists h1 : Adaptor.heap Impl,
     Adaptor.copy_construct a h = Some (b, h1) /\ b <> a /\
     Adaptor.objs h1 !! b = Some (prim_copy x) /\
     Adaptor.objs h1 !! a = Some x /\
     forall (m : Z) (r : Adaptor.loc) (h2 : Adaptor.heap Impl),
       Adaptor.op_plus_assign b m h1 = Some (r, h2) ->
       r = b /\ Adaptor.objs h2 !! a = Some x /\
       Adaptor.objs h2 !! b = prim_advance m (prim_copy x)) /\
  (forall (F : Type) (r : FloatStep.FloatStepIterImpl F),
     FloatStep.FloatStepIterImpl_copy r = r).
Proof.
  intros Ha b.
  assert (Hab : b <> a) by (subst b; apply not_eq_sym; eapply lookup_Some_fresh; eauto).
  assert (Hlt : (a < b)%nat) by (now apply lookup_lt_Some in Ha).
  assert (Hplus : forall d y, prim_advance d (prim_copy x) = Some y ->
            exists h', Adaptor.op_plus a d h = Some (b, h') /\ b <> a /\
              Adaptor.objs h' !! b = Some y /\ Adaptor.objs h' !! a = Some x /\
              (forall l, (l < b)%nat -> Adaptor.objs h' !! l = Adaptor.objs h !! l) /\
              Adaptor.calls h' = Adaptor.calls h ++ [Adaptor.CallAdvance b d]).
  { intros d y Hy. eexists. split; [eapply op_plus_run; eauto|].
    cbn [Adaptor.objs Adaptor.calls]. split; [exact Hab|].
    split; [rewrite lookup_app_r by (subst b; lia); subst b;
            now rewrite Nat.sub_diag|].
    split; [now rewrite lookup_app_l|].
    split; [intros l Hl; now rewrite lookup_app_l|reflexivity]. }
  split; [apply Hplus|]. split; [apply (Hplus (- n))|]. split.
  - eexists. split; [eapply copy_construct_run; eauto|].
    cbn [Adaptor.objs]. split; [exact Hab|].
    split; [rewrite lookup_app_r by (subst b; lia); subst b;
            now rewrite Nat.sub_diag|].
    split; [now rewrite lookup_app_l|].
    intros m r h2. unfold Adaptor.op_plus_assign, Adaptor.bind, Adaptor.ret.
    destruct (Adaptor.call_advance b m _) as [[u h3]|] eqn:Hadv; [|discriminate].
    intros [= <- <-]. split; [reflexivity|].
    pose proof (call_advance_frame _ _ _ _ _ Hadv) as [_ Hframe].
    split.
    + rewrite Hframe by (apply not_eq_sym; exact Hab).
      cbn [Adaptor.objs]. now rewrite lookup_app_l.
    + revert Hadv.
      unfold Adaptor.call_advance, Adaptor.bind, Adaptor.load, Adaptor.record,
        Adaptor.lift, Adaptor.store. cbn [Adaptor.objs Adaptor.calls].
      replace ((Adaptor.objs h ++ [prim_copy x]) !! b) with (Some (prim_copy x))
        by (rewrite lookup_app_r by (subst b; lia); subst b;
            now rewrite Nat.sub_diag).
      destruct (prim_advance m (prim_copy x)) as [y|]; [|discriminate].
      intros [= _ Hh]. rewrite <- Hh. cbn [Adaptor.objs].
      apply list_lookup_insert_eq. rewrite length_app. simpl. subst b. lia.
  - intros F r. now destruct r.
Qed.

(** ** Copies of a generating iterator over an lvalue producer *)

Section SharedProducer.

Import SharedGenerating.

Context {G V : Type} (invoke : G -> V * G).

(** One [it++] is one call through the reference: it advances the
    producer the iterator is bound to and stores the value in [val]. *)
Lemma shared_op_postinc_run
  (w : world G V) (this : Adaptor.loc) (a : GeneratingIterImpl V) (g : G) :
  iterators w !! this = Some a ->
  producers w !! generator a = Some g ->
  op_postinc invoke this w =
    Some (this,
          World (<[generator a := snd (invoke g)]> (producers w))
                (<[this := {| val := fst (invoke g); generator := generator a |}]>
                   (iterators w))).
Proof.
  intros Hit Hg. unfold op_postinc, advance.
  change (Z.to_nat 1) with 1%nat. cbn [advance_loop].
  change (0 <? 1) with true. change (0 + 1 <? 1) with false. cbv iota.
  unfold generate. rewrite Hit. cbn [mbind option_bind]. rewrite Hg.
  cbn [mbind option_bind]. destruct (invoke g); reflexivity.
Qed.

(** An iterator and its copy are bound to one producer: advancing the
    copy leaves the original object as it was, and advances the producer
    the original will call.  After [copy++], [it++] stores the second
    value of the producer; with the copy left alone it stores the
    first. *)
Lemma copies_share_the_producer (g : G) (v0 : V) :
  let w1 := snd (generator_of_lvalue v0 0%nat (World [g] [])) in
  let g1 := snd (invoke g) in
  exists w2 w3 w4 w5 : world G V,
    copy_construct 0%nat w1 = Some (1%nat, w2) /\
    op_postinc invoke 0%nat w2 = Some (0%nat, w5) /\
    op_deref 0%nat w5 = Some (fst (invoke g)) /\
    op_postinc invoke 1%nat w2 = Some (1%nat, w3) /\
    iterators w3 !! 0%nat = iterators w2 !! 0%nat /\
    producers w3 = [g1] /\
    op_postinc invoke 0%nat w3 = Some (0%nat, w4) /\
    op_deref 0%nat w4 = Some (fst (invoke g1)).
Proof.
  intros w1 g1. do 4 eexists.
  split; [reflexivity|].
  split; [eapply shared_op_postinc_run; reflexivity|].
  split; [reflexivity|].
  split; [eapply shared_op_postinc_run; reflexivity|].
  split; [reflexivity|]. split; [reflexivity|].
  split; [eapply shared_op_postinc_run; reflexivity|].
  reflexivity.
Qed.

End SharedProducer.

(** C9, evaluated on [auto it = generator(counter)] for an lvalue
    [counter] that returns 0, 1, 2, ... and [auto copy = it].  The
    iterator and its copy are bound to the one object [counter].  With
    the copy left alone, [it++] stores 0 in [it].  After [copy++], which
    leaves the object [it] as it was but moves [counter] to 1, the same
    [it++] stores 1: advancing the copy has changed what the original
    does. *)
Example advancing_a_copy_changes_the_original :
  let w1 := snd (SharedGenerating.generator_of_lvalue 7 0%nat
                   (SharedGenerating.World [0] [])) in
  let it0 := {| SharedGenerating.val := 7; SharedGenerating.generator := 0%nat |} in
  let at_ (v : Z) :=
    {| SharedGenerating.val := v; SharedGenerating.generator := 0%nat |} in
  let w2 := SharedGenerating.World [0] [it0; it0] in
  let w3 := SharedGenerating.World [1] [it0; at_ 0] in
  SharedGenerating.copy_construct 0%nat w1 = Some (1%nat, w2) /\
  SharedGenerating.op_postinc counter_producer 0%nat w2 =
    Some (0%nat, SharedGenerating.World [1] [at_ 0; it0]) /\
  SharedGenerating.op_postinc counter_producer 1%nat w2 = Some (1%nat, w3) /\
  SharedGenerating.iterators w3 !! 0%nat = SharedGenerating.iterators w2 !! 0%nat /\
  SharedGenerating.op_postinc counter_producer 0%nat w3 =
    Some (0%nat, SharedGenerating.World [2] [at_ 1; at_ 0]).
Proof. repeat split. Qed.

(** C1, evaluated on [float_step(0)] over the integers.  The postfix
    forms [it++] and [it--], which are [operator++(int)] and
    [operator--(int)], call [advance(1)] and [advance(-1)] once and
    return [*this], the iterator after the step, at position 1 and -1
    (there with error -0, which [modf] gives for -1);
    no copy is made.  The prefix forms [++it] and [--it] make the same
    single call and return a new object holding the value before the
    step, at position 0. *)
Example postfix_forms_return_the_advanced_iterator :
  let P := Scenario.float_step_ints in
  let h := Scenario.single Scenario.unit_iter in
  let it (p : Z) := Scenario.at_position p Scenario.f32_1 Scenario.f32_0 in
  let back := Scenario.at_position (-1) Scenario.f32_1 Scenario.f32_neg_0 in
  Adaptor.op_postinc (P := P) 0%nat h =
    Some (0%nat, Adaptor.Heap [it 1] [Adaptor.CallAdvance 0%nat 1]) /\
  Adaptor.op_preinc (P := P) 0%nat h =
    Some (1%nat, Adaptor.Heap [it 1; it 0] [Adaptor.CallAdvance 0%nat 1]) /\
  Adaptor.op_postdec (P := P) 0%nat h =
    Some (0%nat, Adaptor.Heap [back] [Adaptor.CallAdvance 0%nat (-1)]) /\
  Adaptor.op_predec (P := P) 0%nat h =
    Some (1%nat, Adaptor.Heap [back; it 0] [Adaptor.CallAdvance 0%nat (-1)]).
Proof. repeat split; vm_compute; reflexivity. Qed.

(** ** The fractional-step primitive in binary32 *)

Section Binary32Facts.

Import FloatStep.

#[local] Abbreviation float32 := Binary32.float32.

(** [==] holds between a float and itself, NaN apart. *)
Lemma eqb_refl (x : float32) :
  Binary32.is_nan x = false -> Binary32.eqb x x = true.
Proof.
  unfold Binary32.eqb, SFeqb.
  destruct x as [s|s| |s m e]; simpl; try discriminate; intros _.
  - reflexivity.
  - now destruct s.
  - destruct s; rewrite Z.compare_refl, Pos.compare_cont_refl; reflexivity.
Qed.

(** Division by a zero never gives a finite quotient. *)
Lemma div_by_zero_not_finite (x z : float32) :
  Binary32.is_zero z = true -> Binary32.is_finite (Binary32.div x z) = false.
Proof.
  destruct z as [sz|sz| |sz mz ez]; try discriminate; intros _.
  now destruct x as [s|s| |s m e].
Qed.

(** A quotient that is not finite has no conversion to [ptrdiff_t]. *)
Lemma to_ptrdiff_not_finite (x : float32) :
  Binary32.is_finite x = false -> Binary32.to_ptrdiff x = None.
Proof. destruct x; simpl; congruence. Qed.

(** ** Rounding never yields NaN

    [binary_round_aux] answers NaN only for a negative mantissa, and the
    shifts and the rounding keep a mantissa that is not negative. *)

Lemma shr_1_nonneg (mrs : shr_record) : 0 <= shr_m mrs -> 0 <= shr_m (shr_1 mrs).
Proof.
  destruct mrs as [m r s]. simpl. intros Hm.
  destruct m as [|p|p]; [simpl; lia| |lia].
  destruct p; simpl; lia.
Qed.

Lemma iter_shr_1_nonneg (p : positive) (mrs : shr_record) :
  0 <= shr_m mrs -> 0 <= shr_m (SpecFloat.iter_pos shr_1 p mrs).
Proof.
  revert mrs; induction p as [p IH|p IH|]; intros mrs Hm; simpl.
  - apply IH, IH, shr_1_nonneg, Hm.
  - apply IH, IH, Hm.
  - apply shr_1_nonneg, Hm.
Qed.

Lemma shr_fexp_nonneg (m e : Z) (l : location) :
  0 <= m -> 0 <= shr_m (fst (shr_fexp Binary32.prec Binary32.emax m e l)).
Proof.
  intros Hm. unfold shr_fexp, shr.
  assert (H0 : 0 <= shr_m (shr_record_of_loc m l))
    by (destruct l as [|[ | | ]]; exact Hm).
  destruct (fexp Binary32.prec Binary32.emax (Zdigits2 m + e) - e); simpl; try exact H0.
  apply iter_shr_1_nonneg, H0.
Qed.

Lemma round_nearest_even_nonneg (m : Z) (l : location) :
  0 <= m -> 0 <= round_nearest_even m l.
Proof.
  intros Hm. unfold round_nearest_even.
  destruct l as [|[ | | ]]; try lia. destruct (Z.even m); lia.
Qed.

Lemma binary_round_aux_not_nan (sx : bool) (mx ex : Z) (lx : location) :
  0 <= mx -> Binary32.is_nan (binary_round_aux Binary32.prec Binary32.emax sx mx ex lx) = false.
Proof.
  intros Hm. unfold binary_round_aux.
  pose proof (shr_fexp_nonneg mx ex lx Hm) as H1.
  destruct (shr_fexp Binary32.prec Binary32.emax mx ex lx) as [mrs' e']. simpl in H1.
  pose proof (shr_fexp_nonneg _ e' loc_Exact
                (round_nearest_even_nonneg _ (loc_of_shr_record mrs') H1)) as H2.
  destruct (shr_fexp Binary32.prec Binary32.emax _ e' loc_Exact) as [mrs'' e'']. simpl in H2.
  destruct (shr_m mrs'') as [|p|p]; [reflexivity| |lia].
  destruct (e'' <=? Binary32.emax - Binary32.prec); reflexivity.
Qed.

Lemma binary_normalize_not_nan (m e : Z) (sz : bool) :
  Binary32.is_nan (binary_normalize Binary32.prec Binary32.emax m e sz) = false.
Proof.
  unfold binary_normalize, binary_round.
  destruct m as [|p|p]; [reflexivity| |];
    destruct (shl_align _ _ _) as [mz ez]; apply binary_round_aux_not_nan; lia.
Qed.

Lemma add_not_nan (x y : float32) :
  Binary32.is_nan x = false -> Binary32.is_finite y = true -> Binary32.is_nan (Binary32.add x y) = false.
Proof.
  destruct x as [sx|sx| |sx mx ex], y as [sy|sy| |sy my ey];
    try discriminate; intros _ _; simpl; try reflexivity.
  - now destruct sx, sy.
  - apply binary_normalize_not_nan.
Qed.

Lemma sub_not_nan (x y : float32) :
  Binary32.is_finite x = true -> Binary32.is_nan y = false -> Binary32.is_nan (Binary32.sub x y) = false.
Proof.
  destruct x as [sx|sx| |sx mx ex], y as [sy|sy| |sy my ey];
    try discriminate; intros _ _; simpl; try reflexivity.
  - now destruct sx, sy.
  - apply binary_normalize_not_nan.
Qed.
(** Where [advance] is defined it leaves an error that is a number:
    a sum that is NaN or infinite makes [intPart] NaN or infinite, and
    the conversion of such an [intPart] is undefined. *)
Lemma advance_error_not_nan (n : Z) (a a' : FloatStepIterImpl float32) :
  advance n a = Some a' -> Binary32.is_nan (_error a') = false.
Proof.
  unfold advance, advance_split.
  cbn [modf fltb fadd fsub to_int of_int Binary32.arith].
  generalize (raw_sum a n) as raw. intros raw.
  destruct raw as [s|s| |s m e]; cbn [Binary32.modf32].
  - destruct s; cbn; intros [= <-]; reflexivity.
  - destruct s; cbn; discriminate.
  - cbn; discriminate.
  - set (ip := binary_normalize _ _ _ _ _).
    assert (Hip : Binary32.is_nan ip = false)
      by apply binary_normalize_not_nan.
    match goal with
    | |- context [Binary32.ltb ?f _] => set (fr := f)
    end.
    assert (Hfr : Binary32.is_nan fr = false).
    { pose proof (sub_not_nan (S754_finite s m e) ip eq_refl Hip) as Hsub.
      subst fr. destruct (Binary32.sub (S754_finite s m e) ip);
        try reflexivity; exact Hsub. }
    clearbody fr. destruct (Binary32.ltb fr (Binary32.of_Z 0)).
    + destruct (Binary32.to_ptrdiff _); [|discriminate].
      cbn [mbind option_bind]. intros [= <-]. cbn [_error].
      apply add_not_nan; [exact Hfr|reflexivity].
    + destruct (Binary32.to_ptrdiff _); [|discriminate].
      cbn [mbind option_bind]. intros [= <-]. exact Hfr.
Qed.

(** No state a program can reach has NaN as its error. *)
Lemma reachable_error_not_nan (a : FloatStepIterImpl float32) :
  reachable a -> Binary32.is_nan (_error a) = false.
Proof.
  induction 1 as [p s|a _ IH|s a _ IH|n a a' _ _ Hadv].
  - reflexivity.
  - exact IH.
  - exact IH.
  - exact (advance_error_not_nan n a a' Hadv).
Qed.

(** The constants of the examples, as mantissa and exponent. *)
Example f32_constants :
  Scenario.f32_1 = S754_finite false 8388608 (-23) /\
  Scenario.f32_half = S754_finite false 8388608 (-24) /\
  Scenario.f32_2_5 = S754_finite false 10485760 (-22) /\
  Scenario.f32_neg_tiny = S754_finite true 8388608 (-53) /\
  Scenario.f32_0_7 = S754_finite false 11744051 (-24) /\
  Scenario.f32_0_3 = S754_finite false 10066330 (-25) /\
  Scenario.f32_0_01 = S754_finite false 10737418 (-30).
Proof. repeat split. Qed.

(** Where no operation happens to round, [difference] gives back the
    count of [advance]: step 2.5, counts 4 and -3. *)
Example difference_after_advance_2_5 :
  (a ← advance 4 Scenario.resampling_iter;
   difference a Scenario.resampling_iter) = Some 4 /\
  (a ← advance (-3) Scenario.resampling_iter;
   difference a Scenario.resampling_iter) = Some (-3).
Proof. split; reflexivity. Qed.

(** One step of 2.5 from error 0, and one from error .5, at any
    position. *)
Lemma advance_2_5_from_0 (p : Z) :
  advance 1 (Scenario.at_position p Scenario.f32_2_5 Scenario.f32_0) =
    Some (Scenario.at_position (p + 2) Scenario.f32_2_5 Scenario.f32_half).
Proof. reflexivity. Qed.

Lemma advance_2_5_from_half (p : Z) :
  advance 1 (Scenario.at_position p Scenario.f32_2_5 Scenario.f32_half) =
    Some (Scenario.at_position (p + 3) Scenario.f32_2_5 Scenario.f32_0).
Proof. reflexivity. Qed.

(** Single steps compose. *)
Lemma advance_times_add (j k : nat) (a : FloatStepIterImpl float32) :
  advance_times (j + k) a = a' ← advance_times j a; advance_times k a'.
Proof.
  revert a; induction j as [|j IH]; intros a; [reflexivity|].
  simpl. destruct (advance 1 a) as [a1|]; simpl; [apply IH|reflexivity].
Qed.

(** Two steps of 2.5 from error 0 move the position by 5 and bring the
    error back to 0. *)
Lemma advance_2_5_twice (k : nat) :
  advance_times (2 * k) Scenario.resampling_iter =
    Some (Scenario.at_position (5 * Z.of_nat k) Scenario.f32_2_5 Scenario.f32_0).
Proof.
  induction k as [|k IH]; [reflexivity|].
  replace (2 * S k)%nat with (2 * k + 2)%nat by lia.
  rewrite advance_times_add, IH. cbn [mbind option_bind].
  change (advance_times 2 ?a) with (a1 ← advance 1 a; a2 ← advance 1 a1; Some a2).
  rewrite advance_2_5_from_0. cbn [mbind option_bind].
  rewrite advance_2_5_from_half. cbn [mbind option_bind].
  do 2 f_equal. lia.
Qed.

End Binary32Facts.

Section Binary32Claims.

Import FloatStep.

#[local] Abbreviation float32 := Binary32.float32.

(** C6.  [equal] returns true exactly when the positions are the same
    and the errors compare equal with [==]; the two [step] fields have
    no influence on the result; so two primitives with the same
    position and the same error, the error being a number, are equal
    whatever their steps; and the error is a number in every state a
    program can reach. *)
Theorem equal_ignores_step (a b : FloatStepIterImpl float32) :
  (equal a b = true <->
     iter a = iter b /\ Binary32.eqb (_error a) (_error b) = true) /\
  (forall s1 s2 : float32, equal (set_step s1 a) (set_step s2 b) = equal a b) /\
  (Binary32.is_nan (_error a) = false ->
   forall s1 s2 : float32,
     equal {| step := s1; _error := _error a; iter := iter a |}
           {| step := s2; _error := _error a; iter := iter a |} = true) /\
  (reachable a ->
   forall s1 s2 : float32, equal (set_step s1 a) (set_step s2 a) = true).
Proof.
  assert (Hsame : Binary32.is_nan (_error a) = false ->
            forall s1 s2 : float32,
              equal {| step := s1; _error := _error a; iter := iter a |}
                    {| step := s2; _error := _error a; iter := iter a |} = true).
  { intros Hnan s1 s2. unfold equal. cbn [iter _error].
    rewrite Z.eqb_refl. apply (eqb_refl _ Hnan). }
  split; [|split; [|split]].
  - unfold equal. rewrite andb_true_iff, Z.eqb_eq. reflexivity.
  - reflexivity.
  - exact Hsame.
  - intros Hreach s1 s2. apply Hsame, reachable_error_not_nan, Hreach.
Qed.

(** C5, as the code has it.  The constructor and the assignment to the
    public member [step] store every step, a zero included, and check
    nothing.  With a zero step the quotient that [difference] computes
    is an infinity or NaN, whatever the two iterators are; nothing
    reports it, and the conversion of the quotient to the integer
    result is undefined. *)
Theorem zero_step_is_stored_and_divided_by
  (z : float32) (p : Z) (a o : FloatStepIterImpl float32) :
  Binary32.is_zero z = true ->
  step (FloatStepIterImpl_new p z) = z /\
  step (set_step z a) = z /\
  Binary32.is_finite (difference_quotient (set_step z a) o) = false /\
  difference (set_step z a) o = None.
Proof.
  intros Hz. split; [reflexivity|]. split; [reflexivity|].
  assert (Hq : Binary32.is_finite (difference_quotient (set_step z a) o) = false)
    by (apply div_by_zero_not_finite; exact Hz).
  split; [exact Hq|]. apply to_ptrdiff_not_finite, Hq.
Qed.

(** C8.  From [float_step(0, 2.5f)], single steps reach position 0
    with error 0, then 2 with error .5, 5 with error 0, 7 with error .5
    and 10 with error 0; and so on for ever: after [2k] steps the
    position is [5k] and the error is exactly 0, after [2k + 1] steps
    the position is [5k + 2] and the error is exactly .5. *)
Theorem step_2_5_scenario :
  advance_times 0 Scenario.resampling_iter =
    Some (Scenario.at_position 0 Scenario.f32_2_5 Scenario.f32_0) /\
  advance_times 1 Scenario.resampling_iter =
    Some (Scenario.at_position 2 Scenario.f32_2_5 Scenario.f32_half) /\
  advance_times 2 Scenario.resampling_iter =
    Some (Scenario.at_position 5 Scenario.f32_2_5 Scenario.f32_0) /\
  advance_times 3 Scenario.resampling_iter =
    Some (Scenario.at_position 7 Scenario.f32_2_5 Scenario.f32_half) /\
  advance_times 4 Scenario.resampling_iter =
    Some (Scenario.at_position 10 Scenario.f32_2_5 Scenario.f32_0) /\
  forall k : nat,
    advance_times (2 * k) Scenario.resampling_iter =
      Some (Scenario.at_position (5 * Z.of_nat k)
              Scenario.f32_2_5 Scenario.f32_0) /\
    advance_times (2 * k + 1) Scenario.resampling_iter =
      Some (Scenario.at_position (5 * Z.of_nat k + 2)
              Scenario.f32_2_5 Scenario.f32_half).
Proof.
  do 5 (split; [reflexivity|]).
  intros k. split; [apply advance_2_5_twice|].
  rewrite advance_times_add, advance_2_5_twice. cbn [mbind option_bind].
  change (advance_times 1 ?a) with (a1 ← advance 1 a; Some a1).
  now rewrite advance_2_5_from_0.
Qed.

(** C2, evaluated at step -2^-30 from position 0 and error 0.  The sum
    [_error + step * 1] is -2^-30; [modf] splits it into -0 and
    -2^-30; the branch for a negative remainder adds 1, and
    [-2^-30 + 1] rounds to 1: [advance(1)] leaves error 1, outside the
    half-open range.  The same happens in ordinary use: from
    [float_step(0, 0.01f)], six single steps leave error
    16106126 * 2^-28, in the range, and [advance(-6)] then leaves
    position -1 and error 1. *)
Example advance_leaves_error_one :
  let a := FloatStepIterImpl_new 0 Scenario.f32_neg_tiny in
  let b := FloatStepIterImpl_new 0 Scenario.f32_0_01 in
  let b6 := Scenario.at_position 0 Scenario.f32_0_01
              (Binary32.of_bits 16106126 (-28)) in
  Binary32.in_unit_interval (_error a) = true /\
  advance 1 a =
    Some (Scenario.at_position (-1) Scenario.f32_neg_tiny Scenario.f32_1) /\
  advance_times 6 b = Some b6 /\
  Binary32.in_unit_interval (_error b6) = true /\
  advance (-6) b6 =
    Some (Scenario.at_position (-1) Scenario.f32_0_01 Scenario.f32_1) /\
  Binary32.in_unit_interval Scenario.f32_1 = false.
Proof. repeat split; vm_compute; reflexivity. Qed.

(** C3, evaluated at [float_step(0, 0.7f)] and [n = 10].  One call
    [advance(10)] ends at position 7 with error 0; ten calls
    [advance(1)] end at position 6 with error 16777211 * 2^-24, about
    0.9999997; [equal] tells the two results apart. *)
Example advance_10_is_not_ten_single_steps :
  let a := FloatStepIterImpl_new 0 Scenario.f32_0_7 in
  let once := Scenario.at_position 7 Scenario.f32_0_7 Scenario.f32_0 in
  let stepwise :=
    Scenario.at_position 6 Scenario.f32_0_7 (Binary32.of_bits 16777211 (-24)) in
  advance 10 a = Some once /\
  advance_times 10 a = Some stepwise /\
  equal once stepwise = false.
Proof. repeat split; vm_compute; reflexivity. Qed.

(** C4, evaluated at [float_step(0, 0.3f)] and [d = 15].  [advance(15)]
    ends at position 4 with error .5; the quotient [(4 + .5) / 0.3f]
    rounds to 15728639 * 2^-20, just below 15, and the conversion of the
    quotient to the integer result cuts it to 14.  Two more inputs: at
    [float_step(0, 0.01f)], after [advance(-1)] the distance from the
    start is 0, not -1; and for [last = first + 5] at step [0.3f], after
    four single steps the distance of the iterator from [last] is
    already 0, so the loop condition [it < last] that the source
    recommends ends the loop one step early. *)
Example difference_after_advance_15_is_14 :
  let b := FloatStepIterImpl_new 0 Scenario.f32_0_3 in
  let a := Scenario.at_position 4 Scenario.f32_0_3 Scenario.f32_half in
  let c := FloatStepIterImpl_new 0 Scenario.f32_0_01 in
  let c1 := Scenario.at_position (-1) Scenario.f32_0_01
              (Binary32.of_bits 16609444 (-24)) in
  let last := Scenario.at_position 1 Scenario.f32_0_3 Scenario.f32_half in
  let it4 := Scenario.at_position 1 Scenario.f32_0_3
               (Binary32.of_bits 13421776 (-26)) in
  advance 15 b = Some a /\
  difference_quotient a b = Binary32.of_bits 15728639 (-20) /\
  difference a b = Some 14 /\
  advance (-1) c = Some c1 /\
  difference c1 c = Some 0 /\
  advance 5 b = Some last /\
  advance_times 4 b = Some it4 /\
  difference it4 last = Some 0.
Proof. repeat split; vm_compute; reflexivity. Qed.

End Binary32Claims.

Lemma equal_ignores_step_witness :
  let a := Scenario.at_position 2 Scenario.f32_2_5 Scenario.f32_half in
  Binary32.is_nan (FloatStep._error a) = false /\
  FloatStep.reachable a /\
  FloatStep.equal a (FloatStep.set_step Scenario.f32_1 a) = true.
Proof.
  intros a. split; [reflexivity|].
  assert (Hreach : FloatStep.reachable a).
  { apply (FloatStep.reachable_advance 1 Scenario.resampling_iter);
      [apply FloatStep.reachable_new|reflexivity]. }
  split; [exact Hreach|].
  destruct (equal_ignores_step a a) as (_ & _ & Hnumber & Hreachable).
  assert (Hsame := Hnumber eq_refl Scenario.f32_2_5 Scenario.f32_1).
  exact (Hreachable Hreach Scenario.f32_2_5 Scenario.f32_1).
Defined.

(** C5, as the claim has it, fails: [float_step(3, 0.f)] is built, and
    its difference to [float_step(0, 0.f)] divides 3 by 0 into an
    infinity, its difference to itself divides 0 by 0 into NaN. *)
Lemma zero_step_is_accepted :
  let a := FloatStep.FloatStepIterImpl_new (arith := Binary32.arith) 3 Scenario.f32_0 in
  let b := FloatStep.FloatStepIterImpl_new (arith := Binary32.arith) 0 Scenario.f32_0 in
  FloatStep.step a = Scenario.f32_0 /\
  FloatStep.difference_quotient a b = S754_infinity false /\
  FloatStep.difference_quotient a a = S754_nan /\
  FloatStep.difference a b = None.
Proof. repeat split. Qed.

Lemma zero_step_is_stored_and_divided_by_witness :
  Binary32.is_zero Scenario.f32_0 = true /\
  FloatStep.difference (arith := Binary32.arith)
    (FloatStep.set_step Scenario.f32_0 Scenario.resampling_iter)
    Scenario.unit_iter = None.
Proof.
  split; [reflexivity|].
  apply (zero_step_is_stored_and_divided_by Scenario.f32_0 0
           Scenario.resampling_iter Scenario.unit_iter).
  reflexivity.
Defined.

(** * Further properties of the adaptor *)

Section AdaptorOperators.

Import Adaptor.

Context {Impl V : Type} {P : Primitive Impl V}.

(** [a[d]] builds one temporary, the copy of [a] advanced by [d], and
    reads it: the value is the one the advanced copy dereferences to,
    the log gains the call of [advance] and the call of [dereference],
    both on the temporary, and [a] and every other object keep their
    state.  Where [advance] is undefined on the copy, so is [a[d]]. *)
Theorem op_index_reads_advanced_copy
  (h : heap Impl) (a : loc) (x : Impl) (d : Z) :
  objs h !! a = Some x ->
  let tmp := length (objs h) in
  (forall y : Impl, prim_advance d (prim_copy x) = Some y ->
     op_index a d h =
       Some (prim_dereference y,
             Heap (objs h ++ [y])
                  (calls h ++ [CallAdvance tmp d; CallDereference tmp])) /\
     (objs h ++ [y]) !! a = Some x) /\
  (prim_advance d (prim_copy x) = None -> op_index a d h = None).
Proof.
  intros Ha tmp. split.
  - intros y Hy. split; [|apply lookup_app_l_Some, Ha].
    unfold op_index, bind at 1. rewrite (op_plus_run h a d x y Ha Hy).
    unfold op_deref, call_dereference, bind, load, record, ret.
    cbn [objs calls]. rewrite lookup_app_r by lia. rewrite Nat.sub_diag.
    cbn. now rewrite <- app_assoc.
  - intros Hnone. unfold op_index, op_plus, bind at 1 2.
    rewrite (copy_construct_run h a x Ha).
    unfold call_advance, bind, load, record, lift. cbn [objs calls].
    rewrite lookup_app_r by lia. rewrite Nat.sub_diag. cbn.
    now rewrite Hnone.
Qed.

(** [a += d] advances [*this] in place: it returns a reference to [a],
    builds no object, makes one call [advance(d)] and leaves every other
    object as it was; [a -= d] is [a += -d]; and for a primitive whose
    copy constructor reproduces its argument, [a += d] leaves in [a] the
    very state that [a + d] puts into its new object. *)
Theorem op_plus_assign_in_place
  (h : heap Impl) (a : loc) (x y : Impl) (d : Z) :
  objs h !! a = Some x ->
  prim_advance d x = Some y ->
  op_plus_assign a d h =
    Some (a, Heap (<[a := y]> (objs h)) (calls h ++ [CallAdvance a d])) /\
  length (<[a := y]> (objs h)) = length (objs h) /\
  <[a := y]> (objs h) !! a = Some y /\
  (forall l : loc, l <> a -> <[a := y]> (objs h) !! l = objs h !! l) /\
  op_minus_assign a (- d) h = op_plus_assign a d h /\
  (prim_copy x = x ->
   exists h' : heap Impl,
     op_plus a d h = Some (length (objs h), h') /\
     objs h' !! length (objs h) = Some y).
Proof.
  intros Ha Hy.
  split.
  { unfold op_plus_assign, bind. now rewrite (call_advance_run h a d x y Ha Hy). }
  split; [apply length_insert|].
  split; [apply list_lookup_insert_eq; now apply lookup_lt_Some in Ha|].
  split; [intros l Hl; now apply list_lookup_insert_ne|].
  split; [unfold op_minus_assign, op_plus_assign; now rewrite Z.opp_involutive|].
  intros Hcopy. eexists. split.
  - apply (op_plus_run h a d x y Ha). now rewrite Hcopy.
  - cbn [objs]. rewrite lookup_app_r by lia. now rewrite Nat.sub_diag.
Qed.

Section Observers.

Context {E : EqualPrimitive Impl} {D : DifferencePrimitive Impl}.

(** The operators that only look: [*a], [a->], [a == b], [a != b],
    [a - b], [a < b], [a > b], [a <= b] and [a >= b] never change or
    build an object; whenever one of them returns, the store holds the
    same objects as before and the log has grown by one call. *)
Theorem observers_leave_the_store
  (h h' : heap Impl) (a b : loc) :
  (forall v : V,
     op_deref a h = Some (v, h') \/ op_arrow a h = Some (v, h') ->
     objs h' = objs h /\ calls h' = calls h ++ [CallDereference a]) /\
  (forall r : bool,
     op_eq a b h = Some (r, h') \/ op_ne a b h = Some (r, h') ->
     objs h' = objs h /\ calls h' = calls h ++ [CallEqual a b]) /\
  (forall k : Z,
     op_distance a b h = Some (k, h') ->
     objs h' = objs h /\ calls h' = calls h ++ [CallDifference a b]) /\
  (forall r : bool,
     op_lt a b h = Some (r, h') \/ op_gt a b h = Some (r, h') \/
     op_le a b h = Some (r, h') \/ op_ge a b h = Some (r, h') ->
     objs h' = objs h /\ calls h' = calls h ++ [CallDifference a b]).
Proof.
  assert (Hdiff : forall k h1, call_difference a b h = Some (k, h1) ->
            objs h1 = objs h /\ calls h1 = calls h ++ [CallDifference a b]).
  { intros k h1. unfold call_difference, bind, load, record, lift.
    destruct (objs h !! a) as [x|]; [|discriminate]. cbn [objs calls].
    destruct (objs h !! b) as [y|]; [|discriminate].
    destruct (prim_difference x y); [|discriminate].
    intros [= _ <-]. split; reflexivity. }
  assert (Hord : forall (f : Z -> bool) r,
            bind (call_difference a b) (fun k => ret (f k)) h = Some (r, h') ->
            objs h' = objs h /\ calls h' = calls h ++ [CallDifference a b]).
  { intros f r. unfold bind at 1.
    destruct (call_difference a b h) as [[k h1]|]; [|discriminate].
    unfold ret. intros [= _ <-]. exact (Hdiff k h1 eq_refl). }
  assert (Heq : forall r h1, call_equal a b h = Some (r, h1) ->
            objs h1 = objs h /\ calls h1 = calls h ++ [CallEqual a b]).
  { intros r h1. unfold call_equal, bind, load, record, ret.
    destruct (objs h !! a) as [x|]; [|discriminate]. cbn [objs calls].
    destruct (objs h !! b) as [y|]; [|discriminate].
    intros [= _ <-]. split; reflexivity. }
  split; [|split; [|split]].
  - intros v. unfold op_deref, op_arrow, call_dereference, bind, load, record, ret.
    destruct (objs h !! a) as [x|]; cbn [objs calls];
      intros [Hr|Hr]; try discriminate; injection Hr as _ <-; split; reflexivity.
  - intros r [Hr|Hr]; [exact (Heq r h' Hr)|].
    unfold op_ne, bind at 1 in Hr.
    destruct (call_equal a b h) as [[r0 h1]|]; [|discriminate].
    unfold ret in Hr. injection Hr as _ <-. exact (Heq r0 h1 eq_refl).
  - intros k. apply Hdiff.
  - intros r [Hr|[Hr|[Hr|Hr]]]; eapply Hord; exact Hr.
Qed.

(** The four ordering operators read the sign of one and the same
    [difference]: from one store, [a < b] is the negation of [a >= b]
    and [a > b] the negation of [a <= b], [a < b] and [a > b] never both
    hold, and [a <= b] and [a >= b] both hold exactly when the
    difference is 0.  Where [difference] is undefined, so are all
    four. *)
Theorem ordering_reads_sign_of_difference
  (h : heap Impl) (a b : loc) (x y : Impl) :
  objs h !! a = Some x ->
  objs h !! b = Some y ->
  (forall k : Z, prim_difference x y = Some k ->
     exists h' : heap Impl,
       op_distance a b h = Some (k, h') /\
       op_lt a b h = Some (k <? 0, h') /\
       op_gt a b h = Some (k >? 0, h') /\
       op_le a b h = Some (k <=? 0, h') /\
       op_ge a b h = Some (k >=? 0, h') /\
       (k <? 0) = negb (k >=? 0) /\
       (k >? 0) = negb (k <=? 0) /\
       (k <? 0) && (k >? 0) = false /\
       ((k <=? 0) && (k >=? 0) = true <-> k = 0)) /\
  (prim_difference x y = None ->
     op_distance a b h = None /\ op_lt a b h = None /\ op_gt a b h = None /\
     op_le a b h = None /\ op_ge a b h = None).
Proof.
  intros Ha Hb. split.
  - intros k Hk.
    exists (Heap (objs h) (calls h ++ [CallDifference a b])).
    unfold op_distance, op_lt, op_gt, op_le, op_ge, bind, call_difference,
      bind, load, record, lift, ret.
    rewrite Ha. cbn [objs calls]. rewrite Hb, Hk.
    repeat (split; [reflexivity|]).
    split; [|split; [|split]].
    + rewrite Z.geb_leb. destruct (Z.ltb_spec k 0), (Z.leb_spec 0 k); (reflexivity || lia).
    + rewrite Z.gtb_ltb. destruct (Z.ltb_spec 0 k), (Z.leb_spec k 0); (reflexivity || lia).
    + rewrite Z.gtb_ltb. destruct (Z.ltb_spec k 0), (Z.ltb_spec 0 k); (reflexivity || lia).
    + rewrite Z.geb_leb, andb_true_iff, !Z.leb_le. lia.
  - intros Hk.
    unfold op_distance, op_lt, op_gt, op_le, op_ge, bind, call_difference,
      bind, load, record, lift, ret.
    rewrite Ha. cbn [objs calls]. rewrite Hb, Hk. repeat split.
Qed.

End Observers.

End AdaptorOperators.

(** * Further properties of the two primitives *)

Section GeneratingComposition.

Context {G V : Type} (invoke : G -> V * G).

Import Generating.





End GeneratingComposition.

(** An offset reaches [advance(int)] narrowed to [int]: the adaptor
    hands its [difference_type] argument to a parameter of type [int].
    Offsets in the range of [int] arrive unchanged; offsets that differ
    by a multiple of 2^32 advance a fractional-step iterator alike, so
    [a + 4294967296] is [a + 0]. *)
Theorem float_step_offset_is_narrowed
  {F V : Type} {arith : FloatArith F} (underlying : Z -> V)
  (d k : Z) (a : FloatStep.FloatStepIterImpl F) :
  - 2 ^ 31 <= to_int32 d < 2 ^ 31 /\
  (- 2 ^ 31 <= d < 2 ^ 31 ->
   prim_advance (Primitive := float_step_primitive underlying) d a =
     FloatStep.advance d a) /\
  prim_advance (Primitive := float_step_primitive underlying) (d + k * 2 ^ 32) a =
    prim_advance (Primitive := float_step_primitive underlying) d a /\
  prim_advance (Primitive := float_step_primitive underlying) (2 ^ 32) a =
    FloatStep.advance 0 a.
Proof.
  unfold to_int32. cbn [prim_advance float_step_primitive]. unfold to_int32.
  split; [pose proof (Z.mod_pos_bound (d + 2 ^ 31) (2 ^ 32)); lia|].
  split.
  { intros Hd. rewrite Z.mod_small by lia. f_equal. lia. }
  split; [|reflexivity].
  replace (d + k * 2 ^ 32 + 2 ^ 31) with (d + 2 ^ 31 + k * 2 ^ 32) by lia.
  now rewrite Z.mod_add by lia.
Qed.

(** ** The fractional-step primitive in binary32: equality and distance *)

Section Binary32Algebra.

Import Binary32 FloatStep.

(** Negation commutes with rounding: the sign of the operand only
    selects the sign of the result. *)
Lemma binary_round_aux_opp (s : bool) (m e : Z) (l : location) :
  binary_round_aux prec emax (negb s) m e l =
    SFopp (binary_round_aux prec emax s m e l).
Proof.
  unfold binary_round_aux.
  destruct (shr_fexp prec emax m e l) as [mrs' e'].
  destruct (shr_fexp prec emax _ e' loc_Exact) as [mrs'' e''].
  destruct (shr_m mrs''); [reflexivity| |reflexivity].
  destruct (e'' <=? emax - prec); reflexivity.
Qed.

Lemma binary_normalize_opp (m e : Z) :
  opposite (binary_normalize prec emax m e false)
           (binary_normalize prec emax (- m) e false).
Proof.
  destruct m as [|p|p].
  - left. split; reflexivity.
  - change (- Z.pos p) with (Z.neg p). right.
    unfold binary_normalize, binary_round.
    destruct (shl_align p e _) as [mz ez].
    apply (binary_round_aux_opp false).
  - change (- Z.neg p) with (Z.pos p). right.
    unfold binary_normalize, binary_round.
    destruct (shl_align p e _) as [mz ez].
    rewrite (binary_round_aux_opp false).
    destruct (binary_round_aux prec emax false (Z.pos mz) ez loc_Exact);
      cbn; now rewrite ?negb_involutive.
Qed.

Lemma opposite_sub (x y : float32) : opposite (sub x y) (sub y x).
Proof.
  destruct x as [sx|sx| |sx mx ex], y as [sy|sy| |sy my ey]; cbn;
    try (right; reflexivity);
    try (destruct sx, sy; cbn; (now left) || (now right)).
  all: try (right; cbn; now rewrite ?negb_involutive).
  all: try (right; destruct sx; reflexivity).
  rewrite (Z.min_comm ey ex).
  set (A := cond_Zopp sx _). set (B := cond_Zopp sy _).
  replace (B - A) with (- (A - B)) by lia.
  apply binary_normalize_opp.
Qed.

Lemma opposite_sym (x y : float32) : opposite x y -> opposite y x.
Proof.
  intros [[Hx Hy]| ->]; [left; now split|right].
  destruct x; cbn; now rewrite ?negb_involutive.
Qed.

Lemma of_Z_opp (z : Z) : opposite (of_Z z) (of_Z (- z)).
Proof. apply binary_normalize_opp. Qed.

Lemma add_opp (x y : float32) :
  opposite (add x y) (add (SFopp x) (SFopp y)).
Proof.
  destruct x as [sx|sx| |sx mx ex], y as [sy|sy| |sy my ey]; cbn;
    try (right; reflexivity);
    try (destruct sx, sy; cbn; (now left) || (now right)).
  set (A := Z.pos (fst (shl_align mx ex _))).
  set (B := Z.pos (fst (shl_align my ey _))).
  replace (cond_Zopp (negb sx) A + cond_Zopp (negb sy) B)
    with (- (cond_Zopp sx A + cond_Zopp sy B))
    by (clearbody A B; destruct sx, sy; unfold cond_Zopp; cbn [negb]; lia).
  apply binary_normalize_opp.
Qed.

Lemma add_zero_l (x y : float32) :
  is_zero x = true -> is_zero y = false -> add x y = y.
Proof. destruct x, y; try discriminate; reflexivity. Qed.

Lemma add_zero_r (x y : float32) :
  is_zero y = true -> is_zero x = false -> add x y = x.
Proof. destruct x, y; try discriminate; reflexivity. Qed.

Lemma add_zero_zero (x y : float32) :
  is_zero x = true -> is_zero y = true -> is_zero (add x y) = true.
Proof. destruct x as [[|]| | |], y as [[|]| | |]; try discriminate; reflexivity. Qed.

Lemma is_zero_opp (x : float32) : is_zero (SFopp x) = is_zero x.
Proof. now destruct x. Qed.

Lemma opposite_add (x1 x2 y1 y2 : float32) :
  opposite x1 x2 -> opposite y1 y2 -> opposite (add x1 y1) (add x2 y2).
Proof.
  intros [[Hx1 Hx2]| ->] [[Hy1 Hy2]| ->].
  - left. split; now apply add_zero_zero.
  - destruct (is_zero y1) eqn:Hy.
    + left. split; apply add_zero_zero; try assumption. now rewrite is_zero_opp.
    + right. rewrite !add_zero_l; try assumption; [reflexivity|now rewrite is_zero_opp].
  - destruct (is_zero x1) eqn:Hx.
    + left. split; apply add_zero_zero; try assumption. now rewrite is_zero_opp.
    + right. rewrite !add_zero_r; try assumption; [reflexivity|now rewrite is_zero_opp].
  - apply add_opp.
Qed.

Lemma opposite_div (x1 x2 s : float32) :
  opposite x1 x2 -> opposite (div x1 s) (div x2 s).
Proof.
  intros [[Hx1 Hx2]| ->].
  - destruct x1 as [s1| | |]; try discriminate.
    destruct x2 as [s2| | |]; try discriminate.
    destruct s as [ss|ss| |ss ms es]; cbn; (now left) || (now right).
  - destruct x1 as [sx|sx| |sx mx ex], s as [ss|ss| |ss ms es]; cbn;
      try (right; reflexivity);
      try (right; destruct sx, ss; reflexivity).
    destruct (SFdiv_core_binary prec emax (Z.pos mx) ex (Z.pos ms) es) as [[mz ez] lz].
    right. replace (xorb (negb sx) ss) with (negb (xorb sx ss)) by (now destruct sx, ss).
    apply binary_round_aux_opp.
Qed.

Lemma opposite_to_ptrdiff (x y : float32) (k k' : Z) :
  opposite x y -> to_ptrdiff x = Some k -> to_ptrdiff y = Some k' -> k' = - k.
Proof.
  intros [[Hx Hy]| ->].
  - destruct x, y; try discriminate. cbn. intros [= <-] [= <-]. reflexivity.
  - destruct x as [sx|sx| |sx mx ex]; cbn; try discriminate;
      [intros [= <-] [= <-]; reflexivity|].
    destruct (_ && _); [|discriminate]. destruct (_ && _); [|discriminate].
    intros [= <-] [= <-]. destruct sx; cbn; lia.
Qed.

(** [==] on floats is symmetric, and two floats that compare equal are
    the same float or two zeros. *)
Lemma eqb_sym (x y : float32) : eqb x y = eqb y x.
Proof.
  unfold eqb, SFeqb.
  destruct x as [sx|sx| |sx mx ex], y as [sy|sy| |sy my ey]; cbn;
    try reflexivity; try (destruct sx, sy; reflexivity).
  change (Pos.compare_cont Eq mx my) with (mx ?= my)%positive.
  change (Pos.compare_cont Eq my mx) with (my ?= mx)%positive.
  rewrite (Z.compare_antisym ex ey), (Pos.compare_antisym mx my).
  destruct sx, sy; try reflexivity;
    destruct (ex ?= ey); cbn; try reflexivity;
    destruct (mx ?= my)%positive; reflexivity.
Qed.

Lemma eqb_true (x y : float32) :
  eqb x y = true -> x = y \/ (is_zero x = true /\ is_zero y = true).
Proof.
  unfold eqb, SFeqb.
  destruct x as [sx|sx| |sx mx ex], y as [sy|sy| |sy my ey]; cbn;
    try discriminate; try (destruct sx, sy; discriminate).
  - intros _. right. now split.
  - destruct sx, sy; try discriminate; intros _; now left.
  - change (Pos.compare_cont Eq mx my) with (mx ?= my)%positive.
    destruct sx, sy; try discriminate;
      destruct (ex ?= ey) eqn:He; try discriminate;
      destruct (mx ?= my)%positive eqn:Hm; try discriminate;
      intros _; left;
      apply Z.compare_eq in He; apply Pos.compare_eq in Hm; congruence.
Qed.

Lemma eqb_zero_zero (x y : float32) :
  is_zero x = true -> is_zero y = true -> eqb x y = true.
Proof. destruct x, y; try discriminate; reflexivity. Qed.

Lemma eqb_trans (x y z : float32) :
  eqb x y = true -> eqb y z = true -> eqb x z = true.
Proof.
  intros Hxy Hyz.
  destruct (eqb_true x y Hxy) as [->|[Hx Hy]]; [exact Hyz|].
  destruct (eqb_true y z Hyz) as [<-|[_ Hz]]; [exact Hxy|].
  now apply eqb_zero_zero.
Qed.

(** The difference of two numbers that compare equal is a zero. *)
Lemma sub_eqb_zero (x y : float32) :
  eqb x y = true -> is_finite x = true -> is_zero (sub x y) = true.
Proof.
  intros Hxy Hfin.
  destruct (eqb_true x y Hxy) as [<-|[Hx Hy]].
  - destruct x as [sx|sx| |sx mx ex]; try discriminate.
    + now destruct sx.
    + cbn. now rewrite Z.sub_diag.
  - destruct x as [[|]| | |], y as [[|]| | |]; try discriminate; reflexivity.
Qed.

(** [equal] is an equivalence on the states a program can reach: it is
    symmetric and transitive on all states, and reflexive on every
    reachable one (only a NaN error, which no reachable state has, is
    unequal to itself). *)
Theorem equal_is_an_equivalence (a b c : FloatStepIterImpl float32) :
  (reachable a -> equal a a = true) /\
  equal a b = equal b a /\
  (equal a b = true -> equal b c = true -> equal a c = true).
Proof.
  split; [|split].
  - intros Hreach. unfold equal. rewrite Z.eqb_refl.
    apply eqb_refl, reachable_error_not_nan, Hreach.
  - unfold equal. now rewrite Z.eqb_sym, (eqb_sym (_error a)).
  - unfold equal. rewrite !andb_true_iff, !Z.eqb_eq.
    intros [Hab Eab] [Hbc Ebc]. split; [congruence|].
    exact (eqb_trans _ _ _ Eab Ebc).
Qed.

(** Two iterators that compare equal are at distance 0, whenever the
    errors are finite and the step is a number other than zero; so then
    neither is before the other.  The converse fails: an iterator half a
    unit past another one, with step 2.5, is at distance 0 from it and
    not equal to it. *)
Theorem equal_iterators_are_at_distance_0 (a b : FloatStepIterImpl float32) :
  (equal a b = true ->
   is_finite (_error a) = true ->
   is_zero (step a) = false -> is_nan (step a) = false ->
   difference a b = Some 0) /\
  (let x := Scenario.at_position 2 Scenario.f32_2_5 Scenario.f32_half in
   let y := Scenario.at_position 2 Scenario.f32_2_5 Scenario.f32_0 in
   difference x y = Some 0 /\ equal x y = false).
Proof.
  split; [|split; reflexivity].
  unfold equal, difference, difference_quotient.
  rewrite andb_true_iff, Z.eqb_eq. intros [Hiter Herr] Hfin Hzero Hnan.
  cbn [to_int fdiv fadd fsub of_int Binary32.arith].
  rewrite Hiter, Z.sub_diag.
  pose proof (sub_eqb_zero _ _ Herr Hfin) as Hsub.
  pose proof (add_zero_zero (of_Z 0) _ eq_refl Hsub) as Hnum.
  destruct (add (of_Z 0) (sub (_error a) (_error b))) as [sn| | |];
    try discriminate.
  destruct (step a) as [ss|ss| |ss ms es]; try discriminate; reflexivity.
Qed.

(** For two iterators with the same step the distance is antisymmetric
    in binary32, with no rounding error: whenever [a - b] and [b - a]
    are both defined, one is the negative of the other, so [a < b]
    holds exactly when [b > a] does.  With different steps this fails:
    an iterator at 0 with step 1 and one at 5 with step -1 are each at
    distance -5 from the other, each before the other. *)
Theorem difference_is_antisymmetric
  (a b : FloatStepIterImpl float32) (k k' : Z) :
  (step a = step b ->
   difference a b = Some k -> difference b a = Some k' ->
   k' = - k /\ (k <? 0) = (k' >? 0)) /\
  (let x := Scenario.at_position 0 Scenario.f32_1 Scenario.f32_0 in
   let y := Scenario.at_position 5 (of_Z (-1)) Scenario.f32_0 in
   difference x y = Some (-5) /\ difference y x = Some (-5)).
Proof.
  split; [|split; reflexivity].
  intros Hstep Hab Hba.
  assert (Hk : k' = - k).
  { revert Hab Hba. unfold difference, difference_quotient.
    cbn [to_int fdiv fadd fsub of_int Binary32.arith]. rewrite <- Hstep.
    apply opposite_to_ptrdiff, opposite_div, opposite_add.
    - replace (iter b - iter a) with (- (iter a - iter b)) by lia.
      apply of_Z_opp.
    - apply opposite_sub. }
  split; [exact Hk|]. subst k'. rewrite Z.gtb_ltb.
  destruct (Z.ltb_spec k 0), (Z.ltb_spec 0 (- k)); (reflexivity || lia).
Qed.

(** With a step that is an infinity or NaN every [advance], whatever
    the count and the current error, is undefined: the sum
    [_error + step * n] is then an infinity or NaN, so is [intPart], and
    such an [intPart] has no conversion to the distance type. *)
Theorem advance_undefined_for_nonfinite_step
  (n : Z) (a : FloatStepIterImpl float32) :
  is_finite (step a) = false -> advance n a = None.
Proof.
  intros Hstep. unfold advance, advance_split, raw_sum.
  cbn [modf fltb fadd fsub fmul to_int of_int Binary32.arith].
  pose proof (binary_normalize_not_nan n 0 false) as Hn.
  change (binary_normalize prec emax n 0 false) with (of_Z n) in Hn.
  destruct (step a) as [ss|ss| |ss ms es]; try discriminate;
    destruct (of_Z n) as [sn|sn| |sn mn en]; try discriminate;
    destruct (_error a) as [[|]|[|]| |se me ee];
    try (destruct ss, sn; reflexivity); try (destruct ss; reflexivity);
    reflexivity.
Qed.

(** The digits of a mantissa bound it. *)
Lemma digits2_pos_size (m : positive) : digits2_pos m = Pos.size m.
Proof. induction m as [m IH|m IH|]; cbn; now rewrite ?IH. Qed.

Lemma mantissa_lt_pow2 (m : positive) (d : Z) :
  Z.pos (digits2_pos m) <= d -> Z.pos m < 2 ^ d.
Proof.
  intros Hd. rewrite digits2_pos_size in Hd.
  pose proof (Pos.size_gt m) as Hm.
  apply Pos2Z.pos_lt_pos in Hm. rewrite Pos2Z.inj_pow in Hm.
  eapply Z.lt_le_trans; [exact Hm|].
  apply Z.pow_le_mono_r; lia.
Qed.

(** A canonical float below 1 has integral part 0. *)
Lemma trunc_magnitude_below_1 (m : positive) (e : Z) :
  valid_binary prec emax (S754_finite false m e) = true ->
  ltb (S754_finite false m e) (of_Z 1) = true ->
  trunc_magnitude m e = 0.
Proof.
  unfold valid_binary, bounded, canonical_mantissa, fexp.
  rewrite andb_true_iff, Z.eqb_eq. intros [Hcanon _].
  assert (Hdigits : Z.pos (digits2_pos m) <= 24) by (unfold prec in Hcanon; lia).
  change (of_Z 1) with (S754_finite false 8388608 (-23)).
  unfold ltb, SFltb. cbn [SFcompare].
  change (Pos.compare_cont Eq m 8388608) with (m ?= 8388608)%positive.
  destruct (e ?= -23) eqn:He; try discriminate.
  - apply Z.compare_eq in He. subst e.
    destruct (m ?= 8388608)%positive eqn:Hm; try discriminate. intros _.
    change (m < 8388608)%positive in Hm.
    unfold trunc_magnitude. rewrite Z.shiftr_div_pow2 by lia.
    apply Z.div_small. split; [lia|].
    change (2 ^ 23) with 8388608. lia.
  - intros _. change (e < -23) in He.
    destruct e as [|p|p]; try lia.
    unfold trunc_magnitude. rewrite Z.shiftr_div_pow2 by lia.
    apply Z.div_small. split; [lia|].
    eapply Z.lt_le_trans; [apply (mantissa_lt_pow2 m 24 Hdigits)|].
    apply Z.pow_le_mono_r; lia.
Qed.

(** [advance(0)] changes nothing that can be observed: for a finite
    step and an error that is a canonical float in the half-open range,
    it is defined, keeps the position and the step, and leaves an error
    that compares equal to the old one, so the result compares equal to
    the iterator it started from. *)
Theorem advance_0_is_identity (a : FloatStepIterImpl float32) :
  is_finite (step a) = true ->
  valid_binary prec emax (_error a) = true ->
  in_unit_interval (_error a) = true ->
  exists a' : FloatStepIterImpl float32,
    advance 0 a = Some a' /\
    iter a' = iter a /\ step a' = step a /\
    eqb (_error a') (_error a) = true /\ equal a' a = true.
Proof.
  intros Hstep Hvalid Hrange.
  unfold in_unit_interval in Hrange. apply andb_true_iff in Hrange as [Hlo Hhi].
  assert (Hadv : exists e' : float32,
            advance 0 a = Some {| step := step a; _error := e'; iter := iter a + 0 |} /\
            eqb e' (_error a) = true).
  { unfold advance, advance_split, raw_sum.
    cbn [modf fltb fadd fsub fmul to_int of_int Binary32.arith].
    change (of_Z 0) with (S754_zero false) in *.
    assert (Hmul : is_zero (mul (step a) (S754_zero false)) = true)
      by (destruct (step a) as [ss|ss| |ss ms es]; try discriminate; reflexivity).
    destruct (mul (step a) (S754_zero false)) as [sz| | |]; try discriminate.
    revert Hvalid Hlo Hhi.
    destruct (_error a) as [se|se| |se me ee]; intros Hvalid Hlo Hhi;
      try (destruct se; discriminate); try discriminate.
    - exists (add (S754_zero se) (S754_zero sz)).
      destruct se, sz; split; reflexivity.
    - destruct se; [discriminate|].
      pose proof (trunc_magnitude_below_1 me ee Hvalid Hhi) as Htrunc.
      exists (S754_finite false me ee).
      cbn [add SFadd modf32 cond_Zopp]. rewrite Htrunc.
      cbn. split; [reflexivity|].
      unfold eqb, SFeqb. cbn. now rewrite Z.compare_refl, Pos.compare_cont_refl. }
  destruct Hadv as (e' & Hadv & He').
  eexists. split; [exact Hadv|]. cbn [iter step _error].
  split; [lia|]. split; [reflexivity|]. split; [exact He'|].
  unfold equal. cbn [iter _error feqb Binary32.arith].
  rewrite He', andb_true_r. apply Z.eqb_eq. lia.
Qed.

End Binary32Algebra.

(** ** The generating iterator through the adaptor *)

(** On a generating iterator [it++] calls the producer once, through one
    call [advance(1)], and [*it] then returns what that call produced;
    [*it] itself calls nothing, so a second [*it] returns the same value
    from the same objects. *)
Theorem generating_increment_then_dereference
  {G V : Type} (invoke : G -> V * G)
  (h : Adaptor.heap (Generating.GeneratingIterImpl G V))
  (it : Adaptor.loc) (a : Generating.GeneratingIterImpl G V) :
  Adaptor.objs h !! it = Some a ->
  let P := generating_primitive invoke in
  let a' := {| Generating.val := fst (invoke (Generating.generator a));
               Generating.generator := snd (invoke (Generating.generator a)) |} in
  let h1 := Adaptor.Heap (<[it := a']> (Adaptor.objs h))
              (Adaptor.calls h ++ [Adaptor.CallAdvance it 1]) in
  let h2 := Adaptor.Heap (Adaptor.objs h1)
              (Adaptor.calls h1 ++ [Adaptor.CallDereference it]) in
  Adaptor.op_postinc (P := P) it h = Some (it, h1) /\
  Adaptor.op_deref (P := P) it h1 = Some (fst (invoke (Generating.generator a)), h2) /\
  exists h3 : Adaptor.heap (Generating.GeneratingIterImpl G V),
    Adaptor.op_deref (P := P) it h2 =
      Some (fst (invoke (Generating.generator a)), h3) /\
    Adaptor.objs h3 = Adaptor.objs h1.
Proof.
  intros Ha P a' h1 h2.
  assert (Hadv : prim_advance (Primitive := P) 1 a = Some a').
  { cbn [prim_advance P generating_primitive].
    change (to_int32 1) with 1. unfold Generating.advance.
    change (Z.to_nat 1) with 1%nat. cbn [Generating.advance_loop].
    change (0 <? 1) with true. change (0 + 1 <? 1) with false.
    cbv iota. unfold Generating.generate.
    subst a'. destruct (invoke (Generating.generator a)); reflexivity. }
  assert (Hit : Adaptor.objs h1 !! it = Some a').
  { subst h1. cbn [Adaptor.objs]. apply list_lookup_insert_eq.
    now apply lookup_lt_Some in Ha. }
  split; [exact (op_postinc_run h it a a' Ha Hadv)|].
  split.
  - unfold Adaptor.op_deref, Adaptor.call_dereference, Adaptor.bind,
      Adaptor.load, Adaptor.record, Adaptor.ret.
    rewrite Hit. reflexivity.
  - eexists. split.
    + unfold Adaptor.op_deref, Adaptor.call_dereference, Adaptor.bind,
        Adaptor.load, Adaptor.record, Adaptor.ret.
      subst h2. cbn [Adaptor.objs]. rewrite Hit. reflexivity.
    + reflexivity.
Qed.

(** ** Instances of the properties above at concrete iterators *)

Lemma op_index_reads_advanced_copy_witness :
  let h := Scenario.single Scenario.resampling_iter in
  Adaptor.objs h !! 0%nat = Some Scenario.resampling_iter /\
  Adaptor.op_index (P := Scenario.float_step_ints) 0%nat 3 h =
    Some (7, Adaptor.Heap
               [Scenario.resampling_iter;
                Scenario.at_position 7 Scenario.f32_2_5 Scenario.f32_half]
               [Adaptor.CallAdvance 1%nat 3; Adaptor.CallDereference 1%nat]).
Proof.
  intros h. split; [reflexivity|].
  destruct (op_index_reads_advanced_copy (P := Scenario.float_step_ints) h 0%nat
              Scenario.resampling_iter 3 eq_refl) as [Hdefined _].
  exact (proj1 (Hdefined
                  (Scenario.at_position 7 Scenario.f32_2_5 Scenario.f32_half)
                  eq_refl)).
Defined.

Lemma op_plus_assign_in_place_witness :
  let h := Scenario.single Scenario.resampling_iter in
  let y := Scenario.at_position 7 Scenario.f32_2_5 Scenario.f32_half in
  Adaptor.objs h !! 0%nat = Some Scenario.resampling_iter /\
  prim_advance (Primitive := Scenario.float_step_ints) 3 Scenario.resampling_iter
    = Some y /\
  Adaptor.op_plus_assign (P := Scenario.float_step_ints) 0%nat 3 h =
    Some (0%nat, Adaptor.Heap [y] [Adaptor.CallAdvance 0%nat 3]).
Proof.
  intros h y. split; [reflexivity|]. split; [reflexivity|].
  exact (proj1 (op_plus_assign_in_place (P := Scenario.float_step_ints) h 0%nat
                  Scenario.resampling_iter y 3 eq_refl eq_refl)).
Defined.

Lemma observers_leave_the_store_witness :
  let h := Scenario.single Scenario.resampling_iter in
  let h' := Adaptor.Heap [Scenario.resampling_iter] [Adaptor.CallDereference 0%nat] in
  Adaptor.op_deref (P := Scenario.float_step_ints) 0%nat h = Some (0, h') /\
  Adaptor.objs h' = Adaptor.objs h.
Proof.
  intros h h'. split; [reflexivity|].
  destruct (observers_leave_the_store (P := Scenario.float_step_ints)
              h h' 0%nat 0%nat) as [Hderef _].
  exact (proj1 (Hderef 0 (or_introl eq_refl))).
Defined.

Lemma ordering_reads_sign_of_difference_witness :
  let x := Scenario.at_position 5 Scenario.f32_2_5 Scenario.f32_0 in
  let h := Adaptor.Heap [Scenario.resampling_iter; x] [] in
  Adaptor.objs h !! 0%nat = Some Scenario.resampling_iter /\
  Adaptor.objs h !! 1%nat = Some x /\
  FloatStep.difference Scenario.resampling_iter x = Some (-2) /\
  exists h' : Adaptor.heap (FloatStep.FloatStepIterImpl Binary32.float32),
    Adaptor.op_lt 0%nat 1%nat h = Some (true, h') /\
    Adaptor.op_ge 0%nat 1%nat h = Some (false, h').
Proof.
  intros x h. split; [reflexivity|]. split; [reflexivity|]. split; [reflexivity|].
  destruct (ordering_reads_sign_of_difference
              h 0%nat 1%nat Scenario.resampling_iter x eq_refl eq_refl)
    as [Hdefined _].
  destruct (Hdefined (-2) eq_refl) as (h' & _ & Hlt & _ & _ & Hge & _).
  exists h'. split; [exact Hlt|exact Hge].
Defined.


Lemma float_step_offset_is_narrowed_witness :
  - 2 ^ 31 <= 3 < 2 ^ 31 /\
  prim_advance (Primitive := Scenario.float_step_ints) 3 Scenario.resampling_iter =
    FloatStep.advance 3 Scenario.resampling_iter.
Proof.
  assert (Hrange : - 2 ^ 31 <= 3 < 2 ^ 31) by lia.
  split; [exact Hrange|].
  destruct (float_step_offset_is_narrowed Scenario.ints 3 0
              Scenario.resampling_iter) as (_ & Hsame & _).
  exact (Hsame Hrange).
Defined.

Lemma equal_is_an_equivalence_witness :
  let a := Scenario.at_position 2 Scenario.f32_2_5 Scenario.f32_half in
  let b := Scenario.at_position 2 Scenario.f32_1 Scenario.f32_half in
  FloatStep.reachable a /\
  FloatStep.equal a b = true /\ FloatStep.equal b a = true /\
  FloatStep.equal a a = true.
Proof.
  intros a b.
  assert (Hreach : FloatStep.reachable a).
  { apply (FloatStep.reachable_advance 1 Scenario.resampling_iter);
      [apply FloatStep.reachable_new|reflexivity]. }
  destruct (equal_is_an_equivalence a b a) as (Hrefl & Hsym & Htrans).
  split; [exact Hreach|]. split; [reflexivity|].
  split; [rewrite <- Hsym; reflexivity|].
  assert (Hloop := Htrans eq_refl eq_refl).
  exact (Hrefl Hreach).
Defined.

Lemma equal_iterators_are_at_distance_0_witness :
  let a := Scenario.at_position 2 Scenario.f32_2_5 Scenario.f32_half in
  let b := Scenario.at_position 2 Scenario.f32_1 Scenario.f32_half in
  FloatStep.equal a b = true /\
  Binary32.is_finite (FloatStep._error a) = true /\
  Binary32.is_zero (FloatStep.step a) = false /\
  Binary32.is_nan (FloatStep.step a) = false /\
  FloatStep.difference a b = Some 0.
Proof.
  intros a b. repeat (split; [reflexivity|]).
  exact (proj1 (equal_iterators_are_at_distance_0 a b)
           eq_refl eq_refl eq_refl eq_refl).
Defined.

Lemma difference_is_antisymmetric_witness :
  let a := Scenario.resampling_iter in
  let b := Scenario.at_position 5 Scenario.f32_2_5 Scenario.f32_0 in
  FloatStep.step a = FloatStep.step b /\
  FloatStep.difference a b = Some (-2) /\
  FloatStep.difference b a = Some 2 /\
  2 = - -2.
Proof.
  intros a b. repeat (split; [reflexivity|]).
  exact (proj1 (proj1 (difference_is_antisymmetric a b (-2) 2)
                  eq_refl eq_refl eq_refl)).
Defined.

Lemma advance_undefined_for_nonfinite_step_witness :
  let a := Scenario.at_position 0 (S754_infinity false) Scenario.f32_0 in
  Binary32.is_finite (FloatStep.step a) = false /\
  FloatStep.advance 1 a = None.
Proof.
  intros a. split; [reflexivity|].
  exact (advance_undefined_for_nonfinite_step 1 a eq_refl).
Defined.

Lemma advance_0_is_identity_witness :
  let a := Scenario.at_position 2 Scenario.f32_2_5 Scenario.f32_half in
  Binary32.is_finite (FloatStep.step a) = true /\
  valid_binary Binary32.prec Binary32.emax (FloatStep._error a) = true /\
  Binary32.in_unit_interval (FloatStep._error a) = true /\
  exists a' : FloatStep.FloatStepIterImpl Binary32.float32,
    FloatStep.advance 0 a = Some a' /\ FloatStep.equal a' a = true.
Proof.
  intros a. repeat (split; [reflexivity|]).
  destruct (advance_0_is_identity a eq_refl eq_refl eq_refl)
    as (a' & Hadv & _ & _ & _ & Heq).
  exists a'. split; [exact Hadv|exact Heq].
Defined.

Lemma generating_increment_then_dereference_witness :
  let h := Adaptor.Heap [Generating.GeneratingIterImpl_new 7 0] [] in
  Adaptor.objs h !! 0%nat = Some (Generating.GeneratingIterImpl_new 7 0) /\
  Adaptor.op_postinc (P := generating_primitive counter_producer) 0%nat h =
    Some (0%nat,
          Adaptor.Heap [{| Generating.val := 0; Generating.generator := 1 |}]
                       [Adaptor.CallAdvance 0%nat 1]).
Proof.
  intros h. split; [reflexivity|].
  exact (proj1 (generating_increment_then_dereference counter_producer h 0%nat
                  (Generating.GeneratingIterImpl_new 7 0) eq_refl)).
Defined.
